(** * A shallow embedding of the consistent-hash ring (shard/ring.go) and of
      the dhash node's periodic workers (dhash node: sync, clean, migrate).

    Conventions.
    - A position ([[]byte]) is a [list byte]; [bytes.Compare] is the
      lexicographic order on unsigned bytes.
    - Go's [int] is modelled by [Z] (key counts and indices stay far from
      the 64-bit bounds); slice indices that the code keeps non-negative are
      [nat].
    - A run-time panic (index or slice bound out of range) is [None].
    - A slice is modelled together with its backing array wherever the code
      keeps reading cells that a previous [append] has shifted (the [range]
      loops of [Ring.add] and [Ring.remove]). *)

From Stdlib Require Import Strings.String Strings.Byte.
From Stdlib Require Import List ZArith NArith Lia Bool Arith PeanoNat.
From Stdlib Require Import Sorting.Sorted.
Import ListNotations.

Set Implicit Arguments.

(* ================================================================== *)
(** * Part I: definitions                                               *)
(* ================================================================== *)

(** ** bytes and big integers *)

Module GoBytes.

(** [bytes.Compare]: lexicographic, a proper prefix is smaller. *)
Fixpoint Compare (a b : list byte) : comparison :=
  match a, b with
  | [], [] => Eq
  | [], _ :: _ => Lt
  | _ :: _, [] => Gt
  | x :: a', y :: b' =>
      match N.compare (Byte.to_N x) (Byte.to_N y) with
      | Eq => Compare a' b'
      | c => c
      end
  end.

(** The three integer tests the sources apply to the result of
    [bytes.Compare]. *)
Definition is_neg (c : comparison) : bool :=     (* c < 0 *)
  match c with Lt => true | _ => false end.
Definition is_pos (c : comparison) : bool :=     (* c > 0 *)
  match c with Gt => true | _ => false end.
Definition lt_one (c : comparison) : bool :=     (* c < 1 *)
  match c with Gt => false | _ => true end.
Definition is_zero (c : comparison) : bool :=    (* c == 0 *)
  match c with Eq => true | _ => false end.

(** [new(big.Int).SetBytes(b)]: [b] read as a big-endian unsigned number. *)
Definition SetBytes (b : list byte) : Z :=
  fold_left (fun acc x => acc * 256 + Z.of_N (Byte.to_N x))%Z b 0%Z.

Definition byte_of_N (n : N) : byte :=
  match Byte.of_N n with Some b => b | None => Byte.x00 end.

Fixpoint Bytes_loop (fuel : nat) (n : N) (acc : list byte) : list byte :=
  match fuel with
  | O => acc
  | S fuel' =>
      if N.eqb n 0 then acc
      else Bytes_loop fuel' (N.div n 256) (byte_of_N (N.modulo n 256) :: acc)
  end.

(** [big.Int.Bytes()]: the absolute value, big-endian, without leading
    zero bytes (the empty slice for 0).  The binary size of [n] bounds the
    number of base-256 digits. *)
Definition Bytes (z : Z) : list byte :=
  let n := Z.abs_N z in Bytes_loop (N.size_nat n) n [].

End GoBytes.

(** ** sort.Search *)

Module GoSort.

(** The loop of [sort.Search]:
    [for i < j { h := (i+j)/2; if !f(h) { i = h+1 } else { j = h } }]. *)
Fixpoint search_loop (fuel : nat) (f : nat -> bool) (i j : nat) : nat :=
  match fuel with
  | O => i
  | S fuel' =>
      if i <? j then
        let h := (i + j) / 2 in
        if negb (f h) then search_loop fuel' f (h + 1) j
        else search_loop fuel' f i h
      else i
  end.

(** [sort.Search(n, f)].  Each iteration shrinks [j - i], so [n] steps of
    fuel are enough (lemma [search_loop_fuel] below). *)
Definition Search (n : nat) (f : nat -> bool) : nat :=
  search_loop n f 0 n.

(** [f] is monotone below [n]: once true, it stays true.  This is what
    [sort.Search] asks of its test. *)
Definition monotone (n : nat) (f : nat -> bool) : Prop :=
  forall a b, a <= b -> b < n -> f a = true -> f b = true.

End GoSort.

(** ** shard/ring.go *)

(** Modelled from the spec: [murmur.Size], the digest width H in bytes
    ("H = digest size, 16 in the reference"); package murmur is not part of
    the sources at hand. *)
Definition murmur_Size : nat := 16.

Module Shard.
Import GoBytes GoSort.

Record Remote : Type := mkRemote { Pos : list byte; Addr : string }.

Definition noRemote : Remote := mkRemote [] EmptyString.

(** [[]byte(self.Addr)]. *)
Definition addr_bytes (r : Remote) : list byte := list_byte_of_string (Addr r).

(** [Remote.less]. *)
Definition less (self other : Remote) : bool :=
  let val := Compare (Pos self) (Pos other) in
  let val := if is_zero val
             then Compare (addr_bytes self) (addr_bytes other)
             else val in
  is_neg val.

(** A ring is the slice [Ring.Nodes]. *)
Definition Ring : Type := list Remote.

Definition size (self : Ring) : Z := Z.of_nat (length self).

(** [self.Nodes[i]] for an index the code keeps in range. *)
Definition node (self : Ring) (i : nat) : Remote := nth i self noRemote.

(** *** The range loops of [add] and [remove]

    [for index, current := range self.Nodes] evaluates the slice once: the
    loop visits [index = 0 .. n-1] for the initial length [n] and reads
    [current] from the backing array at each step, while the body replaces
    [self.Nodes] by [append(self.Nodes[:index], self.Nodes[index+1:]...)],
    which shifts the cells after [index] one place down in that same
    array and shortens [self.Nodes] by one.  The loop state is therefore
    the backing array [arr] (its first [n] cells) and the current length
    [len] of [self.Nodes]. *)

(** Cells [index+1 .. len-1] move to [index .. len-2]; every other cell,
    in particular cell [len-1], keeps its content. *)
Definition shift_down (index len : nat) (arr : list Remote) : list Remote :=
  firstn index arr
    ++ firstn (len - (index + 1)) (skipn (index + 1) arr)
    ++ skipn (len - 1) arr.

Inductive Flow : Type :=
| Panic                                   (* slice bounds out of range *)
| Return (nodes : list Remote)            (* [return] inside the loop *)
| Next (arr : list Remote) (len : nat).   (* loop goes on / has ended *)

Fixpoint remove_loop (addr : string) (indices : list nat)
         (arr : list Remote) (len : nat) : Flow :=
  match indices with
  | [] => Next arr len
  | index :: rest =>
      let current := nth index arr noRemote in
      if String.eqb (Addr current) addr then
        (* self.Nodes[index+1:] needs index+1 <= len(self.Nodes) *)
        if index + 1 <=? len
        then remove_loop addr rest (shift_down index len arr) (len - 1)
        else Panic
      else remove_loop addr rest arr len
  end.

(** [Ring.remove]. *)
Definition remove (self : Ring) (remote : Remote) : option Ring :=
  match remove_loop (Addr remote) (seq 0 (length self)) self (length self) with
  | Next arr len => Some (firstn len arr)
  | Return nodes => Some nodes
  | Panic => None
  end.

Fixpoint add_loop (remote : Remote) (indices : list nat)
         (arr : list Remote) (len : nat) : Flow :=
  match indices with
  | [] => Next arr len
  | index :: rest =>
      let current := nth index arr noRemote in
      if String.eqb (Addr current) (Addr remote) then
        if is_zero (Compare (Pos current) (Pos remote)) then
          Return (firstn len arr)
        else if index + 1 <=? len
        then add_loop remote rest (shift_down index len arr) (len - 1)
        else Panic
      else add_loop remote rest arr len
  end.

(** [Ring.add].  Both branches after the search build
    [nodes[:i] ++ [remote] ++ nodes[i:]]. *)
Definition add (self : Ring) (remote : Remote) : option Ring :=
  match add_loop remote (seq 0 (length self)) self (length self) with
  | Panic => None
  | Return nodes => Some nodes
  | Next arr len =>
      let nodes := firstn len arr in
      let i := Search (length nodes) (fun i => less remote (node nodes i)) in
      if i <? length nodes
      then Some (firstn i nodes ++ ([remote] ++ skipn i nodes))
      else Some (nodes ++ [remote])
  end.

(** The value that both branches of [add] build after the search. *)
Definition insert (nodes : Ring) (remote : Remote) : Ring :=
  let i := Search (length nodes) (fun i => less remote (node nodes i)) in
  firstn i nodes ++ remote :: skipn i nodes.

(** The backing array after the entry between [l1] and [l2] has been cut
    out by [shift_down]: the last cell keeps its old content. *)
Definition cut (l1 : Ring) (x : Remote) (l2 : Ring) : list Remote :=
  l1 ++ l2 ++ skipn (length l1 + length l2) (l1 ++ x :: l2).

(** [add(remote); remove(remote)]. *)
Definition add_then_remove (self : Ring) (remote : Remote) : option Ring :=
  match add self remote with
  | Some nodes => remove nodes remote
  | None => None
  end.

(** [Ring.indices], returning [(before, at, after)]. *)
Definition indices (self : Ring) (pos : list byte) : Z * Z * Z :=
  let n := length self in
  let i := Search n (fun i => lt_one (Compare pos (Pos (node self i)))) in
  if i =? n then
    (Z.of_nat n - 1, -1, 0)%Z
  else
    let before := if i =? 0 then (Z.of_nat n - 1)%Z else (Z.of_nat i - 1)%Z in
    let cmp := Compare pos (Pos (node self i)) in
    if is_zero cmp then
      let j := Search (n - i)
                 (fun k => is_neg (Compare pos (Pos (node self (k + i))))) in
      let j := j + i in
      (before, Z.of_nat i, if j <? n then Z.of_nat j else 0%Z)
    else
      (before, (-1)%Z, Z.of_nat i).

(** [&self.Nodes[i]] for an [int] index: panics outside [0 .. len-1]. *)
Definition index (self : Ring) (i : Z) : option Remote :=
  if (0 <=? i)%Z then nth_error self (Z.to_nat i) else None.

(** [Ring.remotes]. *)
Definition remotes (self : Ring) (pos : list byte)
  : option (Remote * option Remote * Remote) :=
  let '(beforeIndex, atIndex, afterIndex) := indices self pos in
  match index self beforeIndex with
  | None => None
  | Some before =>
      let at_ := if negb (atIndex =? -1)%Z then index self atIndex else None in
      if negb (atIndex =? -1)%Z && match at_ with None => true | _ => false end
      then None
      else match index self afterIndex with
           | None => None
           | Some after => Some (before, at_, after)
           end
  end.

(** The loop of [getSlot] over [i = 0 .. n-1], carrying
    [(biggestSpace, biggestSpaceIndex)].  As in the source, [next] is read
    from [self.Nodes[i]] when [i+1 < len(self.Nodes)]. *)
Definition getSlot_step (self : Ring) (st : Z * nat) (i : nat) : Z * nat :=
  let '(biggestSpace, biggestSpaceIndex) := st in
  let this := SetBytes (Pos (node self i)) in
  let next :=
    if i + 1 <? length self then SetBytes (Pos (node self i))
    else
      let max := Byte.x01 :: repeat Byte.x00 murmur_Size in
      (SetBytes max + SetBytes (Pos (node self 0)))%Z in
  let thisSpace := (next - this)%Z in
  if (biggestSpace <? thisSpace)%Z then (thisSpace, i)
  else (biggestSpace, biggestSpaceIndex).

(** [Ring.getSlot]; the final [self.Nodes[biggestSpaceIndex]] panics on an
    empty ring. *)
Definition getSlot (self : Ring) : option (list byte) :=
  let '(biggestSpace, biggestSpaceIndex) :=
    fold_left (getSlot_step self) (seq 0 (length self)) (0%Z, 0) in
  match nth_error self biggestSpaceIndex with
  | None => None
  | Some r => Some (Bytes (SetBytes (Pos r) + biggestSpace / 2)%Z)
  end.

(** [s[lo:hi]] on a slice whose capacity is not larger than needed: panics
    unless [0 <= lo <= hi <= len(s)]. *)
Definition slice (s : list Remote) (lo hi : Z) : option (list Remote) :=
  if ((0 <=? lo) && (lo <=? hi) && (hi <=? Z.of_nat (length s)))%Z
  then Some (firstn (Z.to_nat hi - Z.to_nat lo) (skipn (Z.to_nat lo) s))
  else None.

(** [Ring.clean]. *)
Definition clean (self : Ring) (predecessor successor : list byte)
  : option Ring :=
  let '(_, _, from) := indices self predecessor in
  let '(to, at_, _) := indices self successor in
  let to := if negb (at_ =? -1)%Z then at_ else to in
  if (from >? to)%Z then
    slice self to from
  else
    match slice self 0 from, slice self to (Z.of_nat (length self)) with
    | Some a, Some b => Some (a ++ b)
    | _, _ => None
    end.

End Shard.

(** ** Circular arcs of positions, as the specification words them *)

Module Arc.
Import GoBytes.

Definition lt (a b : list byte) : bool := is_neg (Compare a b).
Definition le (a b : list byte) : bool := lt_one (Compare a b).

(** [p] lies strictly inside the circular arc from [a] to [b], both ends
    excluded; the arc wraps when [b <= a]. *)
Definition strictly_inside (p a b : list byte) : bool :=
  if lt a b then lt a p && lt p b else lt a p || lt p b.

(** [p] lies in the circular arc from [a] (exclusive) to [b] (inclusive),
    wrapping when [b <= a]. *)
Definition in_arc (p a b : list byte) : bool :=
  if lt a b then lt a p && le p b else lt a p || le p b.

End Arc.

(** ** The dhash node (type [Node], its three periodic workers) *)

Module Dhash.
Import GoBytes.
Export Shard(Remote, mkRemote, Pos, Addr).

(** One run of [radix.NewSync(src, dst).From(from).To(to)], with or
    without [.Destroy()].  One side is always the local tree; [push] tells
    whether the local tree is the source. *)
Record SyncJob : Type := mkSync {
  push : bool;
  peer : Remote;
  from : list byte;
  to : list byte;
  destroy : bool
}.

(** The collaborators of the dhash node whose code lives in other packages
    (discord, radix, common, the RPC switchboard).  They are kept abstract:
    every statement about the node holds for any behaviour of theirs.

    - [DNode] is the state of the [discord.Node]; its two mutators also
      tell whether the ring change listeners were run.
    - [Trees] is the state of the local [radix.Tree] together with the trees
      of the peers that a sync reaches; [RunSync] returns the state after
      the run with [PutCount()] and [DelCount()].
    - [CallOwned] is the RPC [succ.Call("DHash.Owned", 0, &succSize)];
      [None] is a transport error.

    The helpers of package common that the node calls ([Remote.Less],
    [Max64], [BetweenIE]) are plain functions, modelled below. *)
Class Collaborators : Type := {
  DNode : Type;
  GetAddr : DNode -> string;
  GetPosition : DNode -> list byte;
  GetPredecessor : DNode -> Remote;
  GetSuccessor : DNode -> Remote;
  GetSuccessorFor : DNode -> list byte -> Remote;
  GetSuccessorForRemote : DNode -> Remote -> Remote;
  Redundancy : DNode -> Z;
  GetRemote : DNode -> Remote;                          (* node.Remote() *)
  SetPosition : DNode -> list byte -> DNode * bool;
  RemoveNode : DNode -> Remote -> DNode * bool;
  Trees : Type;
  RealSize : Trees -> Z;
  RealSizeBetween :
    Trees -> option (list byte) -> option (list byte) -> bool -> bool -> Z;
  NextMarker : Trees -> list byte -> list byte * bool;
  NextMarkerIndex : Trees -> Z -> list byte * bool;
  Get : Trees -> list byte -> bool;                     (* existed of Get *)
  RunSync : Trees -> SyncJob -> Trees * Z * Z;
  CallOwned : Trees -> Remote -> option Z
}.

(** Modelled from the spec: [common.BetweenIE], the interval test of
    [migrate] ("Accept wantedPos only if it lies strictly inside
    (pred.Pos, self.Pos) circularly"); the function is not part of the
    sources at hand. *)
Definition BetweenIE (needle a b : list byte) : bool :=
  Arc.strictly_inside needle a b.

(** Modelled from the spec: [common.Remote.Less], "by Position
    lexicographic, ties broken by Address lexicographic"; package common's
    Remote is not part of the sources at hand, shard's [Remote.less] is the
    same order. *)
Definition Less (self other : Remote) : bool := Shard.less self other.

(** Modelled from the spec: [common.Max64], the largest of its arguments
    ("lastChange = max(lastSync, lastReroute, lastMigrate)"). *)
Definition Max64 (a b c : Z) : Z := Z.max a (Z.max b c).

(** Constants of the package, durations in nanoseconds. *)
Definition syncInterval : Z := 1000000000.
Definition migrateWaitFactor : Z := 2.
(** [float64(mySize) > float64(succSize) * migrateHysteresis] with
    [migrateHysteresis = 1.5].  Both sides are computed exactly in
    [float64] for counts below 2^51, where the test is the comparison of
    [2 * mySize] with [3 * succSize]. *)
Definition exceeds_hysteresis (mySize succSize : Z) : bool :=
  (3 * succSize <? 2 * mySize)%Z.

Definition created : Z := 0.
Definition started : Z := 1.
Definition stopped : Z := 2.

(** A listener is an opaque callback; it is identified by a number and its
    invocations are recorded. *)
Definition SyncListener := nat.
Definition CleanListener := nat.
Definition MigrateListener := nat.

(** What a worker does to its collaborators and listeners, in order. *)
Inductive Event : Type :=
| RanSync (job : SyncJob)
| CalledSetPosition (pos : list byte)
| CalledRemoveNode (r : Remote)
| CalledSyncListener (l : SyncListener) (fetched distributed : Z)
| CalledCleanListener (l : CleanListener) (cleaned redistributed : Z)
| CalledMigrateListener (l : MigrateListener) (source destination : list byte).

Section Node.
Context {C : Collaborators}.

Record Node : Type := mkNode {
  state : Z;
  lastSync : Z;
  lastMigrate : Z;
  lastReroute : Z;
  syncListeners : list SyncListener;
  cleanListeners : list CleanListener;
  migrateListeners : list MigrateListener;
  node : DNode;
  tree : Trees;
  trace : list Event
}.

Definition set_node (self : Node) (d : DNode) : Node :=
  mkNode (state self) (lastSync self) (lastMigrate self) (lastReroute self)
         (syncListeners self) (cleanListeners self) (migrateListeners self)
         d (tree self) (trace self).
Definition set_tree (self : Node) (t : Trees) : Node :=
  mkNode (state self) (lastSync self) (lastMigrate self) (lastReroute self)
         (syncListeners self) (cleanListeners self) (migrateListeners self)
         (node self) t (trace self).
Definition set_lastMigrate (self : Node) (t : Z) : Node :=
  mkNode (state self) (lastSync self) t (lastReroute self)
         (syncListeners self) (cleanListeners self) (migrateListeners self)
         (node self) (tree self) (trace self).
Definition set_lastReroute (self : Node) (t : Z) : Node :=
  mkNode (state self) (lastSync self) (lastMigrate self) t
         (syncListeners self) (cleanListeners self) (migrateListeners self)
         (node self) (tree self) (trace self).
Definition set_state (self : Node) (s : Z) : Node :=
  mkNode s (lastSync self) (lastMigrate self) (lastReroute self)
         (syncListeners self) (cleanListeners self) (migrateListeners self)
         (node self) (tree self) (trace self).
Definition emit (self : Node) (evs : list Event) : Node :=
  mkNode (state self) (lastSync self) (lastMigrate self) (lastReroute self)
         (syncListeners self) (cleanListeners self) (migrateListeners self)
         (node self) (tree self) (trace self ++ evs).

(** [NewNode]: the zero values of the struct, [state = created]. *)
Definition NewNode (d : DNode) (t : Trees) : Node :=
  mkNode created 0 0 0 [] [] [] d t [].

(** The ring change listener that [NewNode] registers:
    [atomic.StoreInt64(&result.lastReroute, time.Now().UnixNano())],
    run when discord reports a change. *)
Definition ring_changed (self : Node) (fired : bool) (now : Z) : Node :=
  if fired then set_lastReroute self now else self.

Definition hasState (self : Node) (s : Z) : bool := (state self =? s)%Z.

(** [Start], as far as the state word goes: the compare-and-swap
    [created -> started]; [None] is the error. *)
Definition Start (self : Node) : option Node :=
  if hasState self created then Some (set_state self started) else None.
Definition Stop (self : Node) : Node :=
  if hasState self started then set_state self stopped else self.

(** One [sync.Run()]. *)
Definition run (self : Node) (job : SyncJob) : Node * Z * Z :=
  let '(t, putCount, delCount) := RunSync (tree self) job in
  (emit (set_tree self t) [RanSync job], putCount, delCount).

(** The [for i := 0; i < Redundancy()-1; i++] loop of [sync]. *)
Fixpoint sync_loop (rounds : nat) (self : Node) (nextSuccessor : Remote)
         (fetched distributed : Z) : Node * Z * Z :=
  match rounds with
  | O => (self, fetched, distributed)
  | S rounds' =>
      let myPos := GetPosition (node self) in
      let '(self1, put1, _) :=
        run self (mkSync true nextSuccessor
                         (Pos (GetPredecessor (node self))) myPos false) in
      let distributed := (distributed + put1)%Z in
      let '(self2, put2, _) :=
        run self1 (mkSync false nextSuccessor
                          (Pos (GetPredecessor (node self1))) myPos false) in
      let fetched := (fetched + put2)%Z in
      let nextSuccessor := GetSuccessorForRemote (node self2) nextSuccessor in
      sync_loop rounds' self2 nextSuccessor fetched distributed
  end.

(** [Node.sync]. *)
Definition sync (self : Node) : Node :=
  let nextSuccessor := GetSuccessor (node self) in
  let '(self', fetched, distributed) :=
    sync_loop (Z.to_nat (Redundancy (node self) - 1)) self nextSuccessor 0 0 in
  if negb (fetched =? 0)%Z || negb (distributed =? 0)%Z then
    emit self' (map (fun l => CalledSyncListener l fetched distributed)
                    (syncListeners self'))
  else self'.

(** [syncPeriodically]: [for self.hasState(started) { self.sync(); Sleep }],
    observed for at most [ticks] iterations. *)
Fixpoint syncPeriodically (ticks : nat) (self : Node) : Node :=
  match ticks with
  | O => self
  | S ticks' =>
      if hasState self started then syncPeriodically ticks' (sync self)
      else self
  end.

(** [for len(newPos) < murmur.Size { newPos = append(newPos, 0) }]. *)
Fixpoint pad_loop (fuel : nat) (newPos : list byte) : list byte :=
  match fuel with
  | O => newPos
  | S fuel' =>
      if length newPos <? murmur_Size
      then pad_loop fuel' (newPos ++ [Byte.x00])
      else newPos
  end.
Definition pad (newPos : list byte) : list byte :=
  pad_loop murmur_Size newPos.

(** [Node.changePosition].  [tReroute] and [tMigrate] are the clock
    readings taken by the ring change listener and by the store to
    [lastMigrate]. *)
Definition changePosition (self : Node) (newPos : list byte)
           (tReroute tMigrate : Z) : Node :=
  let newPos := pad newPos in
  let oldPos := GetPosition (node self) in
  if negb (is_zero (Compare newPos oldPos)) then
    let '(d, fired) := SetPosition (node self) newPos in
    let self := emit (set_node self d) [CalledSetPosition newPos] in
    let self := ring_changed self fired tReroute in
    let self := set_lastMigrate self tMigrate in
    emit self (map (fun l => CalledMigrateListener l oldPos newPos)
                   (migrateListeners self))
  else self.

Definition isLeader (self : Node) : bool :=
  is_pos (Compare (Pos (GetPredecessor (node self))) (GetPosition (node self))).

(** [Node.Owned]. *)
Definition Owned (self : Node) : Z :=
  let pred := GetPredecessor (node self) in
  let me := GetRemote (node self) in
  let cmp := Compare (Pos pred) (Pos me) in
  if is_neg cmp then
    RealSizeBetween (tree self) (Some (Pos pred)) (Some (Pos me)) true false
  else if is_pos cmp then
    (RealSizeBetween (tree self) (Some (Pos pred)) None true false
     + RealSizeBetween (tree self) None (Some (Pos me)) true false)%Z
  else if Less pred me then 0%Z
  else RealSize (tree self).

(** The rank looked up by [migrate] and the answer of [NextMarkerIndex]. *)
Definition wanted (self : Node) (succ : Remote) (wantedDelta : Z)
  : list byte * bool :=
  let pred := GetPredecessor (node self) in
  if lt_one (Compare (Pos pred) (GetPosition (node self))) then
    NextMarkerIndex (tree self)
      (RealSizeBetween (tree self) None (Some (GetPosition (node self)))
                       true false - wantedDelta)%Z
  else
    let ownedAfterNil :=
      RealSizeBetween (tree self) None (Some (Pos succ)) true false in
    if (ownedAfterNil >? wantedDelta)%Z then
      NextMarkerIndex (tree self) (ownedAfterNil - wantedDelta)%Z
    else
      NextMarkerIndex (tree self)
        (RealSize (tree self) + ownedAfterNil - wantedDelta)%Z.

(** [Node.migrate]; [now] is the clock reading at the start of the tick. *)
Definition migrate (self : Node) (now tReroute tMigrate : Z) : Node :=
  let lastAllowedChange :=
    (now + -1 * migrateWaitFactor * syncInterval)%Z in
  if (lastAllowedChange
        >? Max64 (lastSync self) (lastReroute self) (lastMigrate self))%Z
  then
    let succ := GetSuccessor (node self) in
    match CallOwned (tree self) succ with
    | None =>
        let '(d, fired) := RemoveNode (node self) succ in
        ring_changed (emit (set_node self d) [CalledRemoveNode succ])
                     fired tReroute
    | Some succSize =>
        let mySize := Owned self in
        if (mySize >? 10)%Z && exceeds_hysteresis mySize succSize then
          let wantedDelta := Z.quot (mySize - succSize) 2 in
          let '(wantedPos, existed) := wanted self succ wantedDelta in
          if negb existed then self
          else if BetweenIE wantedPos (Pos (GetPredecessor (node self)))
                            (GetPosition (node self))
          then changePosition self wantedPos tReroute tMigrate
          else self
        else self
    end
  else self.

(** [Node.circularNext]. *)
Definition circularNext (self : Node) (key : list byte) : list byte * bool :=
  let '(nextKey, existed) := NextMarker (tree self) key in
  if existed then (nextKey, existed)
  else
    let nextKey := repeat Byte.x00 murmur_Size in
    if Get (tree self) nextKey then (nextKey, true)
    else NextMarker (tree self) nextKey.

(** The [for i := 1; i < Redundancy(); i++] loop of [owners]; [last] is
    [owners[i-1]]. *)
Fixpoint owners_loop (rounds : nat) (self : Node) (owners : list Remote)
         (last : Remote) (isOwner : bool) : list Remote * bool :=
  match rounds with
  | O => (owners, isOwner)
  | S rounds' =>
      let next := GetSuccessorForRemote (node self) last in
      owners_loop rounds' self (owners ++ [next]) next
                  (if String.eqb (Addr next) (GetAddr (node self))
                   then true else isOwner)
  end.

(** [Node.owners]. *)
Definition owners (self : Node) (key : list byte) : list Remote * bool :=
  let first := GetSuccessorFor (node self) key in
  let isOwner := String.eqb (Addr first) (GetAddr (node self)) in
  owners_loop (Z.to_nat (Redundancy (node self) - 1)) self [first] first
              isOwner.

(** The [for index, owner := range owners] loop of [clean]; [index] is
    the index of the head of [rest], [n] is [len(owners)] and [primary]
    is [owners[0]]. *)
Fixpoint clean_loop (self : Node) (nextKey : list byte) (primary : Remote)
         (n : Z) (index : Z) (rest : list Remote) (deleted put : Z)
  : Node * Z * Z :=
  match rest with
  | [] => (self, deleted, put)
  | owner :: rest' =>
      let job := mkSync true owner nextKey (Pos primary)
                        (index =? n - 2)%Z in
      let '(self', putCount, delCount) := run self job in
      clean_loop self' nextKey primary n (index + 1)%Z rest'
                 (deleted + delCount)%Z (put + putCount)%Z
  end.

(** [Node.clean]. *)
Definition clean (self : Node) : Node :=
  let '(nextKey, existed) := circularNext self (GetPosition (node self)) in
  if existed then
    let '(owners, isOwner) := owners self nextKey in
    let '(self', deleted, put) :=
      if negb isOwner then
        clean_loop self nextKey (nth 0 owners Shard.noRemote)
                   (Z.of_nat (length owners)) 0 owners 0 0
      else (self, 0%Z, 0%Z) in
    if negb (deleted =? 0)%Z || negb (put =? 0)%Z then
      emit self' (map (fun l => CalledCleanListener l deleted put)
                      (cleanListeners self'))
    else self'
  else self.

(** The jobs that the loop of [clean] runs for the owners [rest], the
    first of which has index [index]. *)
Fixpoint clean_jobs (nextKey : list byte) (primary : Remote)
         (n index : Z) (rest : list Remote) : list SyncJob :=
  match rest with
  | [] => []
  | owner :: rest' =>
      mkSync true owner nextKey (Pos primary) (index =? n - 2)%Z
      :: clean_jobs nextKey primary n (index + 1)%Z rest'
  end.

(** The sync runs recorded in a trace. *)
Fixpoint syncs (tr : list Event) : list SyncJob :=
  match tr with
  | [] => []
  | RanSync job :: tr' => job :: syncs tr'
  | _ :: tr' => syncs tr'
  end.

(** The quiescence gate of [migrate] in the words of the specification:
    the window [migrateWaitFactor * syncInterval] has elapsed since the
    latest of the three timestamps. *)
Definition quiescent (self : Node) (now : Z) : Prop :=
  (Z.max (lastSync self) (Z.max (lastReroute self) (lastMigrate self))
   < now - migrateWaitFactor * syncInterval)%Z.

(** What [migrate] leaves behind when the probe of the successor fails:
    the successor is removed from the ring, nothing else. *)
Definition successor_removed (self : Node) (tReroute : Z) : Node :=
  let succ := GetSuccessor (node self) in
  let '(d, fired) := RemoveNode (node self) succ in
  ring_changed (emit (set_node self d) [CalledRemoveNode succ])
               fired tReroute.

End Node.
End Dhash.

(** ** Reading the three results of [Ring.indices] *)

Module IndexSpec.
Import GoBytes Shard.

Definition pos_at (ring : Ring) (k : nat) : list byte := Pos (node ring k).

(** [b] is the last index whose position is strictly less than [pos],
    or the highest index when there is none. *)
Definition is_before (ring : Ring) (pos : list byte) (b : Z) : Prop :=
  ((exists k, k < length ring /\ Arc.lt (pos_at ring k) pos = true) ->
     exists k, b = Z.of_nat k /\ k < length ring
               /\ Arc.lt (pos_at ring k) pos = true
               /\ forall k', k < k' < length ring ->
                             Arc.lt (pos_at ring k') pos = false)
  /\ ((forall k, k < length ring -> Arc.lt (pos_at ring k) pos = false) ->
      b = (Z.of_nat (length ring) - 1)%Z).

(** [a] is an index whose position equals [pos], or -1 when there is
    none. *)
Definition is_at (ring : Ring) (pos : list byte) (a : Z) : Prop :=
  ((exists k, k < length ring /\ pos_at ring k = pos) ->
     exists k, a = Z.of_nat k /\ k < length ring /\ pos_at ring k = pos)
  /\ ((forall k, k < length ring -> pos_at ring k <> pos) -> a = (-1)%Z).

(** [a] is the first index whose position is strictly greater than [pos],
    or 0 when there is none. *)
Definition is_after (ring : Ring) (pos : list byte) (a : Z) : Prop :=
  ((exists k, k < length ring /\ Arc.lt pos (pos_at ring k) = true) ->
     exists k, a = Z.of_nat k /\ k < length ring
               /\ Arc.lt pos (pos_at ring k) = true
               /\ forall k', k' < k -> Arc.lt pos (pos_at ring k') = false)
  /\ ((forall k, k < length ring -> Arc.lt pos (pos_at ring k) = false) ->
      a = 0%Z).

End IndexSpec.

(** ** The ring invariant *)

Module RingInv.
Import Shard.

(** Strictly sorted under the Remote order. *)
Definition sorted (ring : Ring) : Prop :=
  StronglySorted (fun a b => less a b = true) ring.

(** Addresses are pairwise distinct. *)
Definition unique_addresses (ring : Ring) : Prop :=
  NoDup (map Addr ring).

Definition has_address (ring : Ring) (a : string) : Prop :=
  In a (map Addr ring).

(** Positions never decrease along the ring. *)
Definition pos_sorted (l : Ring) : Prop :=
  forall a b, a <= b -> b < length l ->
              Arc.le (IndexSpec.pos_at l a) (IndexSpec.pos_at l b) = true.

End RingInv.

(** ** [getSlot] as the specification words it *)

Module SlotSpec.
Import GoBytes Shard.

(** The arc that starts at entry [i]: up to entry [i+1], and for the last
    entry up to entry 0 one turn later (base [1 << 8H]). *)
Definition arc (ring : Ring) (i : nat) : Z :=
  let this := SetBytes (Pos (node ring i)) in
  let next :=
    if i + 1 <? length ring then SetBytes (Pos (node ring (i + 1)))
    else (2 ^ (8 * Z.of_nat murmur_Size) + SetBytes (Pos (node ring 0)))%Z in
  (next - this)%Z.

(** [m] is the midpoint of a largest arc between consecutive entries. *)
Definition is_midpoint_of_largest_arc (ring : Ring) (m : Z) : Prop :=
  exists i, i < length ring
            /\ (forall k, k < length ring -> (arc ring k <= arc ring i)%Z)
            /\ m = (SetBytes (Pos (node ring i)) + arc ring i / 2)%Z.

End SlotSpec.

(** ** A small concrete environment for the dhash node

    Used to run the node model on examples. *)

Module Demo.
Import GoBytes Shard.

(** Modelled from the spec: the routing node of section 4.2 (package
    discord is not part of the sources at hand): a ring with the local
    address and position; successor and predecessor are the circular
    neighbours that [Ring.remotes] finds. *)
Record Discord : Type := mkDiscord {
  ring : Ring;
  position : list byte;
  addr : string;
  redundancy : Z
}.

Definition neighbours (d : Discord) (pos : list byte)
  : Remote * option Remote * Remote :=
  match remotes (ring d) pos with
  | Some x => x
  | None => (noRemote, None, noRemote)
  end.

Definition predecessor (d : Discord) : Remote :=
  let '(before, _, _) := neighbours d (position d) in before.
Definition successor (d : Discord) : Remote :=
  let '(_, _, after) := neighbours d (position d) in after.
Definition successorFor (d : Discord) (key : list byte) : Remote :=
  let '(_, at_, after) := neighbours d key in
  match at_ with Some r => r | None => after end.
Definition successorForRemote (d : Discord) (r : Remote) : Remote :=
  let '(_, _, after) := neighbours d (Pos r) in after.
Definition setPosition (d : Discord) (pos : list byte) : Discord * bool :=
  match add (ring d) (mkRemote pos (addr d)) with
  | Some r => (mkDiscord r pos (addr d) (redundancy d), true)
  | None => (d, false)
  end.
Definition removeNode (d : Discord) (r : Remote) : Discord * bool :=
  match remove (ring d) r with
  | Some r' => (mkDiscord r' (position d) (addr d) (redundancy d), true)
  | None => (d, false)
  end.

(** Modelled from the spec: the radix tree of section 3, reduced to the
    sorted list of the keys stored locally (package radix is not part of
    the sources at hand), with the answer the successor gives to
    [DHash.Owned]. *)
Record Store : Type := mkStore {
  keys : list (list byte);
  succOwned : option Z
}.

Definition above (lo : option (list byte)) (inc : bool) (k : list byte) : bool :=
  match lo with
  | None => true
  | Some a => Arc.lt a k || (inc && is_zero (Compare a k))
  end.
Definition below (hi : option (list byte)) (inc : bool) (k : list byte) : bool :=
  match hi with
  | None => true
  | Some b => Arc.lt k b || (inc && is_zero (Compare k b))
  end.
Definition within (lo hi : option (list byte)) (loInc hiInc : bool)
           (k : list byte) : bool :=
  above lo loInc k && below hi hiInc k.

Definition realSizeBetween (s : Store) (lo hi : option (list byte))
           (loInc hiInc : bool) : Z :=
  Z.of_nat (length (filter (within lo hi loInc hiInc) (keys s))).
Definition realSize (s : Store) : Z := Z.of_nat (length (keys s)).
Definition nextMarker (s : Store) (key : list byte) : list byte * bool :=
  match filter (Arc.lt key) (keys s) with
  | k :: _ => (k, true)
  | [] => ([], false)
  end.
Definition nextMarkerIndex (s : Store) (rank : Z) : list byte * bool :=
  if (rank <? 0)%Z then ([], false)
  else match nth_error (keys s) (Z.to_nat rank) with
       | Some k => (k, true)
       | None => ([], false)
       end.
Definition get (s : Store) (key : list byte) : bool :=
  existsb (fun k => is_zero (Compare k key)) (keys s).

(** A push transfers every local key of the range and, with [Destroy],
    deletes it locally; a pull finds nothing new. *)
Definition runSync (s : Store) (job : Dhash.SyncJob) : Store * Z * Z :=
  let inRange :=
    within (Some (Dhash.from job)) (Some (Dhash.to job)) true true in
  if Dhash.push job then
    let moved := Z.of_nat (length (filter inRange (keys s))) in
    if Dhash.destroy job
    then (mkStore (filter (fun k => negb (inRange k)) (keys s)) (succOwned s),
          moved, moved)
    else (s, moved, 0%Z)
  else (s, 0%Z, 0%Z).

#[export] Instance env : Dhash.Collaborators := {|
  Dhash.DNode := Discord;
  Dhash.GetAddr := addr;
  Dhash.GetPosition := position;
  Dhash.GetPredecessor := predecessor;
  Dhash.GetSuccessor := successor;
  Dhash.GetSuccessorFor := successorFor;
  Dhash.GetSuccessorForRemote := successorForRemote;
  Dhash.Redundancy := redundancy;
  Dhash.GetRemote := fun d => mkRemote (position d) (addr d);
  Dhash.SetPosition := setPosition;
  Dhash.RemoveNode := removeNode;
  Dhash.Trees := Store;
  Dhash.RealSize := realSize;
  Dhash.RealSizeBetween := realSizeBetween;
  Dhash.NextMarker := nextMarker;
  Dhash.NextMarkerIndex := nextMarkerIndex;
  Dhash.Get := get;
  Dhash.RunSync := runSync;
  Dhash.CallOwned := fun s _ => succOwned s
|}.

(** Positions of [murmur.Size] bytes with a chosen first byte. *)
Definition at_byte (b : byte) : list byte :=
  b :: repeat Byte.x00 (murmur_Size - 1).

Definition A : Remote := mkRemote (at_byte Byte.x00) "a:9191".
Definition B : Remote := mkRemote (at_byte Byte.x80) "b:9191".
Definition B' : Remote := mkRemote (at_byte Byte.xc0) "b:9191".
Definition Cn : Remote := mkRemote (at_byte Byte.xc0) "c:9191".
Definition D40 : Remote := mkRemote (at_byte Byte.x40) "d:9191".

(** Sample rings. *)
Definition ring5 : Ring :=
  [mkRemote (at_byte Byte.x10) "a:9191"; mkRemote (at_byte Byte.x20) "b:9191";
   mkRemote (at_byte Byte.x30) "c:9191"; mkRemote (at_byte Byte.x40) "d:9191";
   mkRemote (at_byte Byte.x50) "e:9191"].
Definition ring_shared : Ring :=
  [mkRemote (at_byte Byte.x00) "a:9191"; mkRemote (at_byte Byte.x80) "b:9191";
   mkRemote (at_byte Byte.x80) "c:9191"; mkRemote (at_byte Byte.xc0) "d:9191"].
Definition ring_00_40 : Ring :=
  [mkRemote (at_byte Byte.x00) "a:9191"; mkRemote (at_byte Byte.x40) "b:9191"].
Definition ring_00_c0 : Ring :=
  [mkRemote (at_byte Byte.x00) "a:9191"; mkRemote (at_byte Byte.xc0) "b:9191"].

(** Node [Cn] at 0xc0 in the ring [A, D40, B, Cn] with R = 2, holding the
    single key 0x10.., which belongs to [D40] and [B]. *)
Definition node_stale : Dhash.Node :=
  Dhash.mkNode Dhash.started 0 0 0 [7] [8] [9]
               (mkDiscord [A; D40; B; Cn] (Pos Cn) (Addr Cn) 2)
               (mkStore [at_byte Byte.x10] None) [].

(** Twelve keys [0x81 .., 0x8c ..]. *)
Definition twelve_keys : list (list byte) :=
  map at_byte [Byte.x81; Byte.x82; Byte.x83; Byte.x84; Byte.x85; Byte.x86;
               Byte.x87; Byte.x88; Byte.x89; Byte.x8a; Byte.x8b; Byte.x8c].

(** Node [Cn] at 0xc0 in the ring [A, B, Cn] with R = 2; the successor
    [A] answers [DHash.Owned] with [owned]. *)
Definition node_c (ks : list (list byte)) (owned : option Z)
  : Dhash.Node :=
  Dhash.mkNode Dhash.started 0 0 0 [7] [8] [9]
               (mkDiscord [A; B; Cn] (Pos Cn) (Addr Cn) 2)
               (mkStore ks owned) [].

(** The node [Cn] of [node_c] with a replication factor of 1. *)
Definition node_alone (ks : list (list byte)) : Dhash.Node :=
  Dhash.mkNode Dhash.started 0 0 0 [7] [8] [9]
               (mkDiscord [A; B; Cn] (Pos Cn) (Addr Cn) 1)
               (mkStore ks None) [].

(** The node of [node_stale] with a replication factor of 1: the key
    0x10.. belongs to [D40] alone. *)
Definition node_stale_alone : Dhash.Node :=
  Dhash.mkNode Dhash.started 0 0 0 [7] [8] [9]
               (mkDiscord [A; D40; B; Cn] (Pos Cn) (Addr Cn) 1)
               (mkStore [at_byte Byte.x10] None) [].

(** A ring that breaks the invariant: the address b:9191 occurs twice,
    the second time in the last entry. *)
Definition ring_twice : Ring := [A; B; Cn; B'].

End Demo.

(** ** Reading the effects of the dhash workers *)

Module DhashSpec.
Import Dhash.

Section Spec.
Context {C : Collaborators}.

(** Everything of the node but its tree and its trace is the same in [a]
    and [b]: state word, timestamps, listeners and the routing node. *)
Definition untouched (a b : Node) : Prop :=
  state a = state b
  /\ lastSync a = lastSync b
  /\ lastMigrate a = lastMigrate b
  /\ lastReroute a = lastReroute b
  /\ syncListeners a = syncListeners b
  /\ cleanListeners a = cleanListeners b
  /\ migrateListeners a = migrateListeners b
  /\ node a = node b.

(** The owner [o] has the local address. *)
Definition is_local (self : Node) (o : Remote) : bool :=
  String.eqb (Addr o) (GetAddr (node self)).

(** The successors of [last], each the [GetSuccessorForRemote] of the one
    before. *)
Fixpoint chain (rounds : nat) (d : DNode) (last : Remote) : list Remote :=
  match rounds with
  | O => []
  | S rounds' =>
      let next := GetSuccessorForRemote d last in
      next :: chain rounds' d next
  end.

(** A push and a pull over the owned arc for each of [rounds] successors,
    starting with [next]. *)
Fixpoint sync_jobs (rounds : nat) (d : DNode) (next : Remote) : list SyncJob :=
  match rounds with
  | O => []
  | S rounds' =>
      mkSync true next (Pos (GetPredecessor d)) (GetPosition d) false
      :: mkSync false next (Pos (GetPredecessor d)) (GetPosition d) false
      :: sync_jobs rounds' d (GetSuccessorForRemote d next)
  end.

End Spec.
End DhashSpec.

(** ** Compositions of ring operations *)

Module RingOps.
Import Shard.

(** [remove(remote); add(remote)]. *)
Definition remove_then_add (self : Ring) (remote : Remote) : option Ring :=
  match remove self remote with
  | Some nodes => add nodes remote
  | None => None
  end.

(** [add(first); add(second)]. *)
Definition add_add (self : Ring) (first second : Remote) : option Ring :=
  match add self first with
  | Some nodes => add nodes second
  | None => None
  end.

End RingOps.

(** ** The set operation enums of package common *)

Module Common.

(** [const ( Union = iota; Intersection; Difference; Xor )]. *)
Definition Union : Z := 0.
Definition Intersection : Z := 1.
Definition Difference : Z := 2.
Definition Xor : Z := 3.

(** [const ( Append = iota; ... ; BigIntXor )]; the tenth name is spelled
    [FLoatMul] in the source. *)
Definition Append : Z := 0.
Definition ConCat : Z := 1.
Definition IntegerSum : Z := 2.
Definition IntegerSub : Z := 3.
Definition IntegerDiv : Z := 4.
Definition IntegerMul : Z := 5.
Definition FloatSum : Z := 6.
Definition FloatSub : Z := 7.
Definition FloatDiv : Z := 8.
Definition FLoatMul : Z := 9.
Definition BigIntAdd : Z := 10.
Definition BigIntAndNot : Z := 11.
Definition BigIntDiv : Z := 12.
Definition BigIntMod : Z := 13.
Definition BigIntMul : Z := 14.
Definition BigIntOr : Z := 15.
Definition BigIntRem : Z := 16.
Definition BigIntSub : Z := 17.
Definition BigIntXor : Z := 18.

(** [SetOpMerge.String]; [None] is the [panic] after the [switch]. *)
Definition SetOpMerge_String (self : Z) : option string :=
  if (self =? Append)%Z then Some "Append"%string
  else if (self =? ConCat)%Z then Some "ConCat"%string
  else if (self =? IntegerSum)%Z then Some "IntegerSum"%string
  else if (self =? IntegerSub)%Z then Some "IntegerSub"%string
  else if (self =? IntegerDiv)%Z then Some "IntegerDiv"%string
  else if (self =? IntegerMul)%Z then Some "IntegerMul"%string
  else if (self =? FloatSum)%Z then Some "FloatSum"%string
  else if (self =? FloatSub)%Z then Some "FloatSub"%string
  else if (self =? FloatDiv)%Z then Some "FloatDiv"%string
  else if (self =? FLoatMul)%Z then Some "FloatMul"%string
  else if (self =? BigIntAdd)%Z then Some "BigIntAdd"%string
  else if (self =? BigIntAndNot)%Z then Some "BigIntAndNot"%string
  else if (self =? BigIntDiv)%Z then Some "BigIntDiv"%string
  else if (self =? BigIntMod)%Z then Some "BigIntMod"%string
  else if (self =? BigIntMul)%Z then Some "BigIntMul"%string
  else if (self =? BigIntOr)%Z then Some "BigIntOr"%string
  else if (self =? BigIntRem)%Z then Some "BigIntRem"%string
  else if (self =? BigIntSub)%Z then Some "BigIntSub"%string
  else if (self =? BigIntXor)%Z then Some "BigIntXor"%string
  else None.

(** [SetOpType.String]. *)
Definition SetOpType_String (self : Z) : option string :=
  if (self =? Union)%Z then Some "U"%string
  else if (self =? Intersection)%Z then Some "I"%string
  else if (self =? Difference)%Z then Some "D"%string
  else if (self =? Xor)%Z then Some "X"%string
  else None.

End Common.

(* ================================================================== *)
(** * Part II: properties                                               *)
(* ================================================================== *)

(** ** [bytes.Compare] is a total order *)

Module CompareFacts.
Import GoBytes.

Lemma to_N_inj (x y : byte) : Byte.to_N x = Byte.to_N y -> x = y.
Proof.
  intro H.
  assert (E : Byte.of_N (Byte.to_N x) = Byte.of_N (Byte.to_N y)) by now rewrite H.
  rewrite !Byte.of_to_N in E. now inversion E.
Qed.

Lemma Compare_refl (a : list byte) : Compare a a = Eq.
Proof.
  induction a as [|x a IH]; simpl; [reflexivity|].
  now rewrite N.compare_refl.
Qed.

Lemma Compare_eq (a b : list byte) : Compare a b = Eq -> a = b.
Proof.
  revert b; induction a as [|x a IH]; intros [|y b]; simpl; try discriminate;
    [reflexivity|].
  destruct (N.compare (Byte.to_N x) (Byte.to_N y)) eqn:E; try discriminate.
  intro H. apply N.compare_eq_iff in E. apply to_N_inj in E.
  f_equal; auto.
Qed.

Lemma Compare_eq_iff (a b : list byte) : Compare a b = Eq <-> a = b.
Proof.
  split; [apply Compare_eq | intros ->; apply Compare_refl].
Qed.

Lemma Compare_antisym (a b : list byte) :
  Compare b a = CompOpp (Compare a b).
Proof.
  revert b; induction a as [|x a IH]; intros [|y b]; simpl; try reflexivity.
  rewrite (N.compare_antisym (Byte.to_N x) (Byte.to_N y)).
  destruct (N.compare (Byte.to_N x) (Byte.to_N y)); simpl; auto.
Qed.

Lemma Compare_lt_trans (a b c : list byte) :
  Compare a b = Lt -> Compare b c = Lt -> Compare a c = Lt.
Proof.
  revert b c; induction a as [|x a IH]; intros [|y b] [|z c]; simpl;
    try discriminate; try reflexivity.
  destruct (N.compare (Byte.to_N x) (Byte.to_N y)) eqn:E1; try discriminate;
    destruct (N.compare (Byte.to_N y) (Byte.to_N z)) eqn:E2; try discriminate;
    intros H1 H2.
  - apply N.compare_eq_iff in E1, E2. rewrite E1, E2, N.compare_refl.
    eauto.
  - apply N.compare_eq_iff in E1. now rewrite E1, E2.
  - apply N.compare_eq_iff in E2. now rewrite <- E2, E1.
  - rewrite N.compare_lt_iff in E1, E2.
    assert (E : (Byte.to_N x < Byte.to_N z)%N) by lia.
    apply N.compare_lt_iff in E. now rewrite E.
Qed.

Lemma Compare_gt_lt (a b : list byte) : Compare a b = Gt <-> Compare b a = Lt.
Proof.
  rewrite (Compare_antisym a b).
  destruct (Compare a b); simpl; split; congruence.
Qed.

(** The boolean tests, as an order on positions. *)
Lemma lt_irrefl (a : list byte) : Arc.lt a a = false.
Proof. unfold Arc.lt. now rewrite Compare_refl. Qed.

Lemma lt_trans (a b c : list byte) :
  Arc.lt a b = true -> Arc.lt b c = true -> Arc.lt a c = true.
Proof.
  unfold Arc.lt, is_neg. intros H1 H2.
  destruct (Compare a b) eqn:E1; try discriminate.
  destruct (Compare b c) eqn:E2; try discriminate.
  now rewrite (Compare_lt_trans _ _ _ E1 E2).
Qed.

Lemma le_iff (a b : list byte) : Arc.le a b = true <-> Arc.lt b a = false.
Proof.
  unfold Arc.le, Arc.lt, lt_one, is_neg. rewrite (Compare_antisym a b).
  destruct (Compare a b); simpl; split; congruence.
Qed.

Lemma le_cases (a b : list byte) :
  Arc.le a b = true <-> Arc.lt a b = true \/ a = b.
Proof.
  unfold Arc.le, Arc.lt, lt_one, is_neg.
  destruct (Compare a b) eqn:E; split; intro H; auto; try discriminate.
  - right. now apply Compare_eq.
  - destruct H as [H | ->]; [discriminate|].
    rewrite Compare_refl in E. discriminate.
Qed.

Lemma le_refl (a : list byte) : Arc.le a a = true.
Proof. apply le_cases. now right. Qed.

Lemma le_trans (a b c : list byte) :
  Arc.le a b = true -> Arc.le b c = true -> Arc.le a c = true.
Proof.
  rewrite !le_cases. intros [H1 | ->] [H2 | ->]; auto.
  left. eapply lt_trans; eauto.
Qed.

Lemma lt_le_trans (a b c : list byte) :
  Arc.lt a b = true -> Arc.le b c = true -> Arc.lt a c = true.
Proof.
  rewrite le_cases. intros H1 [H2 | ->]; auto. eapply lt_trans; eauto.
Qed.

Lemma le_lt_trans (a b c : list byte) :
  Arc.le a b = true -> Arc.lt b c = true -> Arc.lt a c = true.
Proof.
  rewrite le_cases. intros [H1 | ->] H2; auto. eapply lt_trans; eauto.
Qed.

Lemma lt_le (a b : list byte) : Arc.lt a b = true -> Arc.le a b = true.
Proof. intro H. apply le_cases. now left. Qed.

Lemma lt_asym (a b : list byte) : Arc.lt a b = true -> Arc.lt b a = false.
Proof. intro H. apply le_iff. now apply lt_le. Qed.

Lemma lt_total (a b : list byte) :
  Arc.lt a b = false -> Arc.lt b a = false -> a = b.
Proof.
  intros H1 H2. apply le_iff in H2. apply le_cases in H2.
  destruct H2 as [H2 | H2]; congruence.
Qed.

End CompareFacts.

(** ** [sort.Search] finds the first index where a monotone test holds *)

Module SearchFacts.
Import GoSort.

Lemma half_bounds (i j : nat) : i < j -> i <= (i + j) / 2 < j.
Proof.
  intro H. split.
  - apply Nat.div_le_lower_bound; lia.
  - apply Nat.Div0.div_lt_upper_bound; lia.
Qed.

Lemma search_loop_step (fuel : nat) (f : nat -> bool) (i j : nat) :
  search_loop (S fuel) f i j =
  if i <? j then
    if f ((i + j) / 2) then search_loop fuel f i ((i + j) / 2)
    else search_loop fuel f ((i + j) / 2 + 1) j
  else i.
Proof.
  cbn [search_loop]. destruct (i <? j); [|reflexivity].
  now destruct (f ((i + j) / 2)).
Qed.

(** The loop never leaves the interval it starts from. *)
Lemma search_loop_bounds (fuel : nat) (f : nat -> bool) :
  forall i j, i <= j -> i <= search_loop fuel f i j <= j.
Proof.
  induction fuel as [|fuel IH]; intros i j Hij; [simpl; lia|].
  rewrite search_loop_step.
  destruct (Nat.ltb_spec i j) as [Hlt|Hge]; [|lia].
  pose proof (half_bounds Hlt) as Hh.
  destruct (f ((i + j) / 2)).
  - specialize (IH i ((i + j) / 2)). lia.
  - specialize (IH ((i + j) / 2 + 1) j). lia.
Qed.

(** Fuel beyond [j - i] is never used. *)
Lemma search_loop_fuel (f : nat -> bool) :
  forall fuel1 fuel2 i j,
    j - i <= fuel1 -> j - i <= fuel2 ->
    search_loop fuel1 f i j = search_loop fuel2 f i j.
Proof.
  induction fuel1 as [|fuel1 IH]; intros fuel2 i j H1 H2.
  - destruct fuel2; [reflexivity|]. rewrite search_loop_step.
    destruct (Nat.ltb_spec i j); [lia|reflexivity].
  - destruct fuel2 as [|fuel2]; rewrite !search_loop_step.
    + destruct (Nat.ltb_spec i j); [lia|reflexivity].
    + destruct (Nat.ltb_spec i j) as [Hlt|Hge]; [|reflexivity].
      pose proof (half_bounds Hlt) as Hh.
      destruct (f ((i + j) / 2)); apply IH; lia.
Qed.

Lemma search_loop_first (n : nat) (f : nat -> bool) (Hm : monotone n f) :
  forall fuel i j,
    i <= j -> j <= n -> j - i <= fuel ->
    (forall k, k < i -> f k = false) ->
    (forall k, j <= k -> k < n -> f k = true) ->
    (forall k, k < search_loop fuel f i j -> f k = false)
    /\ (forall k, search_loop fuel f i j <= k -> k < n -> f k = true).
Proof.
  induction fuel as [|fuel IH]; intros i j Hij Hjn Hfuel Hlo Hhi.
  - simpl. split; [exact Hlo|]. intros k Hk. apply Hhi. lia.
  - rewrite search_loop_step.
    destruct (Nat.ltb_spec i j) as [Hlt|Hge].
    + pose proof (half_bounds Hlt) as Hh.
      destruct (f ((i + j) / 2)) eqn:Ef.
      * apply IH; try lia; auto.
        intros k Hk Hkn. apply (Hm ((i + j) / 2) k); auto.
      * apply IH; try lia; auto.
        intros k Hk.
        destruct (f k) eqn:Ek; [|reflexivity].
        rewrite (Hm k ((i + j) / 2)) in Ef; try lia; auto.
    + split; [exact Hlo|]. intros k Hk. apply Hhi. lia.
Qed.

Lemma Search_le (n : nat) (f : nat -> bool) : Search n f <= n.
Proof. unfold Search. pose proof (@search_loop_bounds n f 0 n). lia. Qed.

Lemma Search_first (n : nat) (f : nat -> bool) :
  monotone n f ->
  (forall k, k < Search n f -> f k = false)
  /\ (forall k, Search n f <= k -> k < n -> f k = true).
Proof.
  intro Hm. unfold Search.
  apply (search_loop_first Hm); try lia.
Qed.

End SearchFacts.

(** ** [Remote.less] is a strict total order *)

Module LessFacts.
Import GoBytes Shard CompareFacts.

Lemma addr_bytes_inj (a b : Remote) : addr_bytes a = addr_bytes b -> Addr a = Addr b.
Proof.
  unfold addr_bytes. intro H.
  rewrite <- (string_of_list_byte_of_string (Addr a)),
          <- (string_of_list_byte_of_string (Addr b)).
  now rewrite H.
Qed.

Lemma less_spec (a b : Remote) :
  less a b = true <->
  Arc.lt (Pos a) (Pos b) = true
  \/ (Pos a = Pos b /\ Arc.lt (addr_bytes a) (addr_bytes b) = true).
Proof.
  unfold less, Arc.lt, addr_bytes.
  destruct (Compare (Pos a) (Pos b)) eqn:E; simpl.
  - apply Compare_eq in E. split; [now right|].
    intros [H | [_ H]]; [discriminate|exact H].
  - split; auto.
  - split; [discriminate|]. intros [H | [H _]]; [discriminate|].
    rewrite H, Compare_refl in E. discriminate.
Qed.

Lemma less_irrefl (a : Remote) : less a a = false.
Proof.
  destruct (less a a) eqn:E; [|reflexivity].
  apply less_spec in E. rewrite !lt_irrefl in E.
  destruct E as [E | [_ E]]; discriminate.
Qed.

Lemma less_trans (a b c : Remote) :
  less a b = true -> less b c = true -> less a c = true.
Proof.
  rewrite !less_spec.
  intros [H1 | [H1 H1']] [H2 | [H2 H2']].
  - left. eapply lt_trans; eauto.
  - left. now rewrite <- H2.
  - left. now rewrite H1.
  - right. split; [congruence|]. eapply lt_trans; eauto.
Qed.

Lemma less_total (a b : Remote) :
  less a b = false -> less b a = false -> a = b.
Proof.
  intros H1 H2.
  assert (HP : Pos a = Pos b).
  { apply lt_total.
    - destruct (Arc.lt (Pos a) (Pos b)) eqn:E; [|reflexivity].
      rewrite (proj2 (less_spec a b)) in H1; [discriminate | now left].
    - destruct (Arc.lt (Pos b) (Pos a)) eqn:E; [|reflexivity].
      rewrite (proj2 (less_spec b a)) in H2; [discriminate | now left]. }
  assert (HA : addr_bytes a = addr_bytes b).
  { apply lt_total.
    - destruct (Arc.lt (addr_bytes a) (addr_bytes b)) eqn:E; [|reflexivity].
      rewrite (proj2 (less_spec a b)) in H1; [discriminate | now right].
    - destruct (Arc.lt (addr_bytes b) (addr_bytes a)) eqn:E; [|reflexivity].
      rewrite (proj2 (less_spec b a)) in H2; [discriminate | now right]. }
  apply addr_bytes_inj in HA.
  destruct a, b; simpl in *; congruence.
Qed.

(** Entries in Remote order have positions in (non-strict) order. *)
Lemma less_pos_le (a b : Remote) :
  less a b = true -> Arc.le (Pos a) (Pos b) = true.
Proof.
  rewrite less_spec. intros [H | [H _]].
  - now apply lt_le.
  - rewrite H. apply le_refl.
Qed.

End LessFacts.

(** ** Sorted rings *)

Module SortedFacts.
Import GoBytes GoSort Shard CompareFacts LessFacts RingInv IndexSpec.

Lemma node_app_l (l1 l2 : Ring) (k : nat) :
  k < length l1 -> node (l1 ++ l2) k = node l1 k.
Proof. intro H. unfold node. now apply app_nth1. Qed.

Lemma node_app_r (l1 l2 : Ring) (k : nat) :
  length l1 <= k -> node (l1 ++ l2) k = node l2 (k - length l1).
Proof. intro H. unfold node. now apply app_nth2. Qed.

Lemma node_In (l : Ring) (k : nat) : k < length l -> In (node l k) l.
Proof. intro H. unfold node. now apply nth_In. Qed.

Lemma In_node (l : Ring) (r : Remote) :
  In r l -> exists k, k < length l /\ node l k = r.
Proof. intro H. unfold node. now apply In_nth. Qed.

Lemma sorted_nth (l : Ring) :
  sorted l ->
  forall a b, a < b -> b < length l -> less (node l a) (node l b) = true.
Proof.
  unfold sorted, node. induction 1 as [|x l Hs IH Hx]; intros a b Hab Hb.
  - simpl in Hb. lia.
  - simpl in Hb. destruct b as [|b]; [lia|]. destruct a as [|a]; simpl.
    + rewrite Forall_forall in Hx. apply Hx. apply nth_In. lia.
    + apply IH; lia.
Qed.

Lemma sorted_pos_sorted (l : Ring) : sorted l -> pos_sorted l.
Proof.
  intros Hs a b Hab Hb. unfold pos_at.
  destruct (Nat.eq_dec a b) as [->|Hne]; [apply le_refl|].
  apply less_pos_le. apply sorted_nth; auto. lia.
Qed.

(** The test of the first search of [indices] is monotone on a ring whose
    positions are in order; so is the test of the second search. *)
Lemma ge_monotone (l : Ring) (pos : list byte) :
  pos_sorted l ->
  monotone (length l) (fun i => lt_one (Compare pos (Pos (node l i)))).
Proof.
  intros Hs a b Hab Hb H.
  change (Arc.le pos (pos_at l b) = true).
  change (Arc.le pos (pos_at l a) = true) in H.
  eapply le_trans; eauto.
Qed.

Lemma gt_monotone (l : Ring) (pos : list byte) (i : nat) :
  pos_sorted l ->
  monotone (length l - i) (fun k => is_neg (Compare pos (Pos (node l (k + i))))).
Proof.
  intros Hs a b Hab Hb H.
  change (Arc.lt pos (pos_at l (b + i)) = true).
  change (Arc.lt pos (pos_at l (a + i)) = true) in H.
  eapply lt_le_trans; eauto. apply Hs; lia.
Qed.

Lemma In_firstn_node (l : Ring) (i : nat) (y : Remote) :
  In y (firstn i l) -> exists k, k < i /\ k < length l /\ y = node l k.
Proof.
  intro H. apply (In_nth _ _ noRemote) in H. destruct H as (k & Hk & <-).
  rewrite length_firstn in Hk. exists k. split; [lia|]. split; [lia|].
  unfold node. rewrite nth_firstn.
  destruct (Nat.ltb_spec k i); [reflexivity | lia].
Qed.

Lemma In_skipn_node (l : Ring) (i : nat) (y : Remote) :
  In y (skipn i l) -> exists k, i <= k /\ k < length l /\ y = node l k.
Proof.
  intro H. apply (In_nth _ _ noRemote) in H. destruct H as (k & Hk & <-).
  rewrite length_skipn in Hk. exists (i + k). split; [lia|]. split; [lia|].
  unfold node. apply nth_skipn.
Qed.

End SortedFacts.

(** ** [Ring.indices] *)

Module IndicesFacts.
Import GoBytes GoSort Shard CompareFacts LessFacts RingInv IndexSpec.
Import SearchFacts SortedFacts.

Lemma not_le_lt (a b : list byte) : Arc.le a b = false <-> Arc.lt b a = true.
Proof.
  pose proof (le_iff a b) as H.
  destruct (Arc.le a b), (Arc.lt b a); split; intro; try congruence;
    destruct H as [H1 H2]; auto; try (now rewrite H1 in *);
    try (now rewrite H2 in *).
Qed.

(** What the first search of [indices] returns on a ring with positions in
    order: the number of entries strictly below [pos]. *)
Lemma first_search (l : Ring) (pos : list byte) :
  pos_sorted l ->
  let i := Search (length l) (fun i => lt_one (Compare pos (Pos (node l i)))) in
  i <= length l
  /\ (forall k, k < i -> Arc.lt (pos_at l k) pos = true)
  /\ (forall k, i <= k -> k < length l -> Arc.lt (pos_at l k) pos = false).
Proof.
  intros Hs i. destruct (Search_first (ge_monotone pos Hs)) as [H1 H2].
  split; [apply Search_le|]. split.
  - intros k Hk. apply not_le_lt. apply (H1 k Hk).
  - intros k Hk Hn. apply le_iff. apply (H2 k Hk Hn).
Qed.

(** The second search: the number of entries from [i] on that are not
    above [pos]. *)
Lemma second_search (l : Ring) (pos : list byte) (i : nat) :
  pos_sorted l ->
  let j := Search (length l - i)
             (fun k => is_neg (Compare pos (Pos (node l (k + i))))) in
  j <= length l - i
  /\ (forall k, i <= k -> k < j + i -> Arc.lt pos (pos_at l k) = false)
  /\ (forall k, j + i <= k -> k < length l -> Arc.lt pos (pos_at l k) = true).
Proof.
  intros Hs j. destruct (Search_first (gt_monotone pos i Hs)) as [H1 H2].
  split; [apply Search_le|]. split.
  - intros k Hik Hk. specialize (H1 (k - i)). cbv beta in H1.
    replace (k - i + i) with k in H1 by lia. apply H1. fold j. lia.
  - intros k Hk Hn. specialize (H2 (k - i)). cbv beta in H2.
    replace (k - i + i) with k in H2 by lia. apply H2; fold j; lia.
Qed.

Lemma indices_pos_sorted (l : Ring) (pos : list byte) :
  pos_sorted l ->
  let '(before, at_, after) := indices l pos in
  is_before l pos before /\ is_at l pos at_ /\ is_after l pos after.
Proof.
  intro Hs. unfold indices.
  destruct (first_search pos Hs) as (Hi & Hlow & Hhigh).
  set (i := Search (length l) _) in *.
  destruct (Nat.eqb_spec i (length l)) as [Hin | Hin].
  - (* every entry is below pos *)
    split; [split; [|reflexivity] | split; split; try reflexivity].
    + intros (k & Hk & Hlt). exists (length l - 1).
      split; [lia|]. split; [lia|]. split; [apply Hlow; lia|].
      intros k' Hk'. lia.
    + intros (k & Hk & Heq). exfalso.
      specialize (Hlow k). rewrite Heq, lt_irrefl in Hlow.
      assert (k < i) by lia. intuition discriminate.
    + intros (k & Hk & Hlt). exfalso.
      assert (Hk' : k < i) by lia.
      apply Hlow in Hk'. apply lt_asym in Hk'. congruence.
  - assert (Hlt : i < length l) by lia.
    assert (Hbefore :
              is_before l pos (if i =? 0 then (Z.of_nat (length l) - 1)%Z
                               else (Z.of_nat i - 1)%Z)).
    { split.
      + intros (k & Hk & Hklt).
        assert (Hki : k < i).
        { destruct (Nat.lt_ge_cases k i) as [|Hge]; auto.
          rewrite (Hhigh k Hge Hk) in Hklt. discriminate. }
        destruct (Nat.eqb_spec i 0) as [|Hi0]; [lia|].
        exists (i - 1).
        split; [lia|]. split; [lia|]. split.
        * apply Hlow; lia.
        * intros k' Hk'. apply Hhigh; lia.
      + intros Hnone. destruct (Nat.eqb_spec i 0) as [|Hi0]; [reflexivity|].
        exfalso. specialize (Hlow 0). rewrite Hnone in Hlow by lia.
        assert (0 < i) by lia. intuition discriminate. }
    destruct (Compare pos (Pos (node l i))) eqn:Ecmp; cbn [is_zero].
    + (* an entry at pos *)
      apply Compare_eq in Ecmp.
      destruct (second_search pos i Hs) as (Hj & Hnot & Habove).
      set (j := Search (length l - i) _) in *.
      split; [exact Hbefore|]. split.
      * split.
        -- intros _. exists i.
           split; [reflexivity|]. split; [exact Hlt|]. now symmetry.
        -- intros Hnone. exfalso. apply (Hnone i Hlt). now symmetry.
      * destruct (Nat.ltb_spec (j + i) (length l)) as [Hjn | Hjn].
        -- split.
           ++ intros _. exists (j + i).
              split; [reflexivity|]. split; [exact Hjn|]. split.
              ** apply Habove; lia.
              ** intros k' Hk'.
                 destruct (Nat.lt_ge_cases k' i) as [Hlo | Hhi].
                 --- apply lt_asym. now apply Hlow.
                 --- apply Hnot; lia.
           ++ intros Hnone. exfalso.
              specialize (Habove (j + i) (Nat.le_refl _) Hjn).
              rewrite Hnone in Habove by lia. discriminate.
        -- split; [|reflexivity].
           intros (k & Hk & Hklt). exfalso.
           destruct (Nat.lt_ge_cases k i) as [Hlo | Hhi].
           ++ apply Hlow in Hlo. apply lt_asym in Hlo. congruence.
           ++ rewrite Hnot in Hklt by lia. discriminate.
    + (* the entry at i is above pos *)
      assert (Habove : Arc.lt pos (pos_at l i) = true).
      { unfold Arc.lt, pos_at. now rewrite Ecmp. }
      split; [exact Hbefore|]. split.
      * split; [|reflexivity].
        intros (k & Hk & Heq). exfalso.
        destruct (Nat.lt_ge_cases k i) as [Hlo | Hhi].
        -- apply Hlow in Hlo. rewrite Heq, lt_irrefl in Hlo. discriminate.
        -- pose proof (Hs i k Hhi Hk) as Hle. rewrite Heq in Hle.
           apply le_iff in Hle. congruence.
      * split.
        -- intros _. exists i.
           split; [reflexivity|]. split; [exact Hlt|]. split; [exact Habove|].
           intros k' Hk'. apply lt_asym. now apply Hlow.
        -- intros Hnone. rewrite Hnone in Habove by lia. discriminate.
    + (* impossible: the search returned an entry below pos *)
      exfalso. pose proof (Hhigh i (Nat.le_refl i) Hlt) as H.
      apply Compare_gt_lt in Ecmp. unfold Arc.lt, pos_at in H.
      rewrite Ecmp in H. discriminate.
Qed.

(** C7.  On a non-empty ring that is sorted under the Remote order,
    [indices pos] returns as [before] the last index whose position is
    strictly less than [pos] (the highest index when there is none), as
    [at] an index whose position equals [pos] (-1 when there is none), and
    as [after] the first index whose position is strictly greater than
    [pos] (0 when there is none); entries sharing the position [pos] are
    allowed. *)
Theorem indices_sorted (ring : Ring) (pos : list byte) :
  ring <> [] -> sorted ring ->
  is_before ring pos (fst (fst (indices ring pos)))
  /\ is_at ring pos (snd (fst (indices ring pos)))
  /\ is_after ring pos (snd (indices ring pos)).
Proof.
  intros _ Hs. pose proof (indices_pos_sorted pos (sorted_pos_sorted Hs)) as H.
  destruct (indices ring pos) as [[b a] f]. exact H.
Qed.

End IndicesFacts.

(** ** The range loops of [Ring.add] and [Ring.remove] *)

Module RangeFacts.
Import GoBytes GoSort Shard CompareFacts LessFacts RingInv.

Lemma remove_loop_app (a : string) (i1 i2 : list nat) :
  forall arr len,
    remove_loop a (i1 ++ i2) arr len =
    match remove_loop a i1 arr len with
    | Next arr' len' => remove_loop a i2 arr' len'
    | other => other
    end.
Proof.
  induction i1 as [|k i1 IH]; intros arr len; simpl; [reflexivity|].
  destruct (String.eqb _ a); [|apply IH].
  destruct (k + 1 <=? len); [apply IH | reflexivity].
Qed.

Lemma add_loop_app (r : Remote) (i1 i2 : list nat) :
  forall arr len,
    add_loop r (i1 ++ i2) arr len =
    match add_loop r i1 arr len with
    | Next arr' len' => add_loop r i2 arr' len'
    | other => other
    end.
Proof.
  induction i1 as [|k i1 IH]; intros arr len; simpl; [reflexivity|].
  destruct (String.eqb _ (Addr r)); [|apply IH].
  destruct (is_zero _); [reflexivity|].
  destruct (k + 1 <=? len); [apply IH | reflexivity].
Qed.

(** Cells whose address differs are stepped over. *)
Lemma remove_loop_skip (a : string) (arr : list Remote) (len : nat) :
  forall idx,
    (forall k, In k idx -> String.eqb (Addr (nth k arr noRemote)) a = false) ->
    remove_loop a idx arr len = Next arr len.
Proof.
  induction idx as [|k idx IH]; intro H; simpl; [reflexivity|].
  rewrite (H k) by now left. apply IH. intros k' Hk'. apply H. now right.
Qed.

Lemma add_loop_skip (r : Remote) (arr : list Remote) (len : nat) :
  forall idx,
    (forall k, In k idx ->
               String.eqb (Addr (nth k arr noRemote)) (Addr r) = false) ->
    add_loop r idx arr len = Next arr len.
Proof.
  induction idx as [|k idx IH]; intro H; simpl; [reflexivity|].
  rewrite (H k) by now left. apply IH. intros k' Hk'. apply H. now right.
Qed.

Lemma addr_differs (l : Ring) (a : string) (k : nat) :
  ~ has_address l a -> k < length l ->
  String.eqb (Addr (nth k l noRemote)) a = false.
Proof.
  intros Hno Hk. apply String.eqb_neq. intro E. apply Hno.
  unfold has_address. rewrite <- E. apply in_map. now apply nth_In.
Qed.

Lemma seq_split (n1 n2 : nat) :
  seq 0 (n1 + S n2) = seq 0 n1 ++ n1 :: seq (S n1) n2.
Proof. rewrite seq_app. reflexivity. Qed.

Lemma shift_down_split (l1 : Ring) (x : Remote) (l2 : Ring) :
  shift_down (length l1) (length l1 + S (length l2)) (l1 ++ x :: l2)
  = cut l1 x l2.
Proof.
  unfold shift_down, cut.
  rewrite firstn_app, firstn_all, Nat.sub_diag, firstn_O, app_nil_r.
  f_equal. f_equal.
  - rewrite skipn_app.
    rewrite (skipn_all2 l1) by lia.
    replace (length l1 + 1 - length l1) with 1 by lia. simpl.
    replace (length l1 + S (length l2) - (length l1 + 1)) with (length l2) by lia.
    apply firstn_all.
  - f_equal. lia.
Qed.

Lemma firstn_cut (l1 : Ring) (x : Remote) (l2 : Ring) :
  firstn (length l1 + S (length l2) - 1) (cut l1 x l2) = l1 ++ l2.
Proof.
  unfold cut.
  replace (length l1 + S (length l2) - 1) with (length l1 + length l2) by lia.
  rewrite firstn_app_2. f_equal.
  rewrite firstn_app, firstn_all, Nat.sub_diag, firstn_O. apply app_nil_r.
Qed.

(** After the cut, the cells that the loop still visits hold entries of
    [l2]. *)
Lemma cut_cells (l1 : Ring) (x : Remote) (l2 : Ring) (k : nat) :
  In k (seq (S (length l1)) (length l2)) ->
  In (nth k (cut l1 x l2) noRemote) l2.
Proof.
  rewrite in_seq. intros [Hlo Hhi]. unfold cut.
  rewrite app_nth2 by lia.
  destruct (Nat.lt_ge_cases (k - length l1) (length l2)) as [Hin | Hout].
  - rewrite app_nth1 by lia. apply nth_In. lia.
  - rewrite app_nth2 by lia. rewrite nth_skipn.
    rewrite app_nth2 by lia.
    replace (length l1 + length l2 + (k - length l1 - length l2) - length l1)
      with (S (length l2 - 1)) by lia.
    simpl. apply nth_In. lia.
Qed.

Lemma cut_cells_differ (l1 : Ring) (x : Remote) (l2 : Ring) (a : string) :
  ~ has_address l2 a ->
  forall k, In k (seq (S (length l1)) (length l2)) ->
            String.eqb (Addr (nth k (cut l1 x l2) noRemote)) a = false.
Proof.
  intros Hno k Hk. apply String.eqb_neq. intro E. apply Hno.
  unfold has_address. rewrite <- E. apply in_map. now apply cut_cells.
Qed.

Lemma prefix_cells_differ (l1 l2 : Ring) (a : string) :
  ~ has_address l1 a ->
  forall k, In k (seq 0 (length l1)) ->
            String.eqb (Addr (nth k (l1 ++ l2) noRemote)) a = false.
Proof.
  intros Hno k Hk. apply in_seq in Hk.
  rewrite app_nth1 by lia. apply addr_differs; auto. lia.
Qed.

(** [remove] on a ring without the address, and on a ring with exactly one
    entry of that address. *)
Lemma remove_absent (l : Ring) (r : Remote) :
  ~ has_address l (Addr r) -> remove l r = Some l.
Proof.
  intro Hno. unfold remove. rewrite remove_loop_skip.
  - now rewrite firstn_all.
  - intros k Hk. apply in_seq in Hk. apply addr_differs; auto. lia.
Qed.

Lemma remove_one (l1 l2 : Ring) (x r : Remote) :
  Addr x = Addr r ->
  ~ has_address l1 (Addr r) -> ~ has_address l2 (Addr r) ->
  remove (l1 ++ x :: l2) r = Some (l1 ++ l2).
Proof.
  intros Hx H1 H2. unfold remove.
  rewrite length_app. cbn [length].
  rewrite seq_split, remove_loop_app.
  rewrite remove_loop_skip by now apply prefix_cells_differ.
  cbn [remove_loop].
  rewrite app_nth2, Nat.sub_diag by lia. cbn [nth].
  rewrite Hx, String.eqb_refl.
  destruct (Nat.leb_spec (length l1 + 1) (length l1 + S (length l2))); [|lia].
  rewrite shift_down_split.
  rewrite remove_loop_skip by now apply cut_cells_differ.
  now rewrite firstn_cut.
Qed.

(** The loop of [add] in the three situations of a ring with at most one
    entry per address. *)
Lemma add_loop_absent (l : Ring) (r : Remote) :
  ~ has_address l (Addr r) ->
  add_loop r (seq 0 (length l)) l (length l) = Next l (length l).
Proof.
  intro Hno. apply add_loop_skip.
  intros k Hk. apply in_seq in Hk. apply addr_differs; auto. lia.
Qed.

Lemma add_loop_same (l1 l2 : Ring) (x r : Remote) :
  Addr x = Addr r -> Pos x = Pos r ->
  ~ has_address l1 (Addr r) ->
  add_loop r (seq 0 (length (l1 ++ x :: l2))) (l1 ++ x :: l2)
           (length (l1 ++ x :: l2))
  = Return (l1 ++ x :: l2).
Proof.
  intros Hx Hp H1.
  rewrite length_app. cbn [length].
  rewrite seq_split, add_loop_app.
  rewrite add_loop_skip by now apply prefix_cells_differ.
  cbn [add_loop].
  rewrite app_nth2, Nat.sub_diag by lia. cbn [nth].
  rewrite Hx, String.eqb_refl, Hp, Compare_refl. cbn [is_zero].
  f_equal. rewrite <- (length_app l1 (x :: l2)) at 1.
  replace (length l1 + S (length l2)) with (length (l1 ++ x :: l2)).
  - apply firstn_all.
  - rewrite length_app. reflexivity.
Qed.

Lemma add_loop_moved (l1 l2 : Ring) (x r : Remote) :
  Addr x = Addr r -> Pos x <> Pos r ->
  ~ has_address l1 (Addr r) -> ~ has_address l2 (Addr r) ->
  add_loop r (seq 0 (length (l1 ++ x :: l2))) (l1 ++ x :: l2)
           (length (l1 ++ x :: l2))
  = Next (cut l1 x l2) (length l1 + S (length l2) - 1).
Proof.
  intros Hx Hp H1 H2.
  rewrite length_app. cbn [length].
  rewrite seq_split, add_loop_app.
  rewrite add_loop_skip by now apply prefix_cells_differ.
  cbn [add_loop].
  rewrite app_nth2, Nat.sub_diag by lia. cbn [nth].
  rewrite Hx, String.eqb_refl.
  destruct (Compare (Pos x) (Pos r)) eqn:E;
    [apply Compare_eq in E; contradiction | |]; cbn [is_zero];
    (destruct (Nat.leb_spec (length l1 + 1) (length l1 + S (length l2))); [|lia]);
    rewrite shift_down_split;
    now rewrite add_loop_skip by now apply cut_cells_differ.
Qed.

End RangeFacts.

(** ** [Ring.add] and [Ring.remove] keep the ring invariant *)

Module AddRemoveFacts.
Import GoBytes GoSort Shard CompareFacts LessFacts RingInv.
Import SearchFacts SortedFacts RangeFacts.

Lemma sorted_app (l1 l2 : Ring) :
  sorted (l1 ++ l2) <->
  sorted l1 /\ sorted l2
  /\ (forall a b, In a l1 -> In b l2 -> less a b = true).
Proof.
  unfold sorted. induction l1 as [|x l1 IH]; simpl.
  - split.
    + intro H. split; [constructor|]. split; [exact H|].
      intros a b Ha. contradiction.
    + now intros (_ & H & _).
  - split.
    + intro H. inversion H as [|? ? Hs Hx]; subst.
      apply IH in Hs. destruct Hs as (Hs1 & Hs2 & Hc).
      rewrite Forall_app in Hx. destruct Hx as [Hx1 Hx2].
      repeat split; auto.
      * now constructor.
      * intros a b [<-|Ha] Hb; auto.
        rewrite Forall_forall in Hx2. now apply Hx2.
    + intros (H1 & H2 & Hc). inversion H1 as [|? ? Hs Hx]; subst.
      constructor.
      * apply IH. repeat split; auto.
      * rewrite Forall_app. split; auto.
        rewrite Forall_forall. intros b Hb. apply Hc; auto.
Qed.

Lemma sorted_cons (x : Remote) (l : Ring) :
  sorted (x :: l) <-> sorted l /\ (forall b, In b l -> less x b = true).
Proof.
  unfold sorted. split.
  - intro H. inversion H as [|? ? Hs Hx]; subst.
    rewrite Forall_forall in Hx. auto.
  - intros [Hs Hx]. constructor; auto. now rewrite Forall_forall.
Qed.

Lemma sorted_drop_middle (l1 l2 : Ring) (x : Remote) :
  sorted (l1 ++ x :: l2) -> sorted (l1 ++ l2).
Proof.
  rewrite !sorted_app, sorted_cons. intros (H1 & (H2 & _) & Hc).
  repeat split; auto. intros a b Ha Hb. apply Hc; auto. now right.
Qed.

Lemma unique_drop_middle (l1 l2 : Ring) (x : Remote) :
  unique_addresses (l1 ++ x :: l2) -> unique_addresses (l1 ++ l2).
Proof.
  unfold unique_addresses. rewrite !map_app. cbn [map].
  apply NoDup_remove_1.
Qed.

Lemma has_address_app (l1 l2 : Ring) (a : string) :
  has_address (l1 ++ l2) a <-> has_address l1 a \/ has_address l2 a.
Proof. unfold has_address. rewrite map_app. apply in_app_iff. Qed.

(** In a ring with unique addresses, an address that occurs splits the
    ring around its only entry. *)
Lemma unique_split (l : Ring) (a : string) :
  unique_addresses l -> has_address l a ->
  exists l1 x l2,
    l = l1 ++ x :: l2 /\ Addr x = a
    /\ ~ has_address l1 a /\ ~ has_address l2 a.
Proof.
  intros Hu Hin. unfold has_address in Hin.
  apply in_map_iff in Hin. destruct Hin as (x & Hx & Hxl).
  apply in_split in Hxl. destruct Hxl as (l1 & l2 & ->).
  exists l1, x, l2. split; [reflexivity|]. split; [exact Hx|].
  unfold unique_addresses in Hu. rewrite map_app in Hu. cbn [map] in Hu.
  apply NoDup_remove_2 in Hu. rewrite Hx in Hu.
  unfold has_address. split; intro H; apply Hu; apply in_app_iff; auto.
Qed.

Lemma has_address_dec (l : Ring) (a : string) :
  {has_address l a} + {~ has_address l a}.
Proof. apply in_dec. apply string_dec. Qed.

(** Both branches of [add] after the search insert at the found index. *)
Lemma add_tail (nodes : Ring) (r : Remote) :
  (let i := Search (length nodes) (fun i => less r (node nodes i)) in
   if i <? length nodes
   then Some (firstn i nodes ++ ([r] ++ skipn i nodes))
   else Some (nodes ++ [r]))
  = Some (insert nodes r).
Proof.
  unfold insert. cbv zeta.
  pose proof (Search_le (length nodes) (fun i => less r (node nodes i))) as Hle.
  destruct (Nat.ltb_spec (Search (length nodes) (fun i => less r (node nodes i)))
                         (length nodes)) as [Hlt|Hge]; [reflexivity|].
  assert (E : Search (length nodes) (fun i => less r (node nodes i))
              = length nodes) by lia.
  rewrite E, firstn_all, skipn_all. reflexivity.
Qed.

Lemma add_absent (l : Ring) (r : Remote) :
  ~ has_address l (Addr r) -> add l r = Some (insert l r).
Proof.
  intro Hno. unfold add. rewrite add_loop_absent by assumption.
  rewrite firstn_all. apply add_tail.
Qed.

Lemma add_same (l1 l2 : Ring) (x r : Remote) :
  Addr x = Addr r -> Pos x = Pos r -> ~ has_address l1 (Addr r) ->
  add (l1 ++ x :: l2) r = Some (l1 ++ x :: l2).
Proof.
  intros Hx Hp H1. unfold add. now rewrite add_loop_same.
Qed.

Lemma add_moved (l1 l2 : Ring) (x r : Remote) :
  Addr x = Addr r -> Pos x <> Pos r ->
  ~ has_address l1 (Addr r) -> ~ has_address l2 (Addr r) ->
  add (l1 ++ x :: l2) r = Some (insert (l1 ++ l2) r).
Proof.
  intros Hx Hp H1 H2. unfold add. rewrite add_loop_moved by assumption.
  rewrite firstn_cut. apply add_tail.
Qed.

Lemma less_monotone (l : Ring) (r : Remote) :
  sorted l -> monotone (length l) (fun i => less r (node l i)).
Proof.
  intros Hs a b Hab Hb H.
  destruct (Nat.eq_dec a b) as [->|Hne]; [exact H|].
  eapply less_trans; [exact H|]. apply sorted_nth; auto. lia.
Qed.

Lemma insert_sorted (l : Ring) (r : Remote) :
  sorted l -> ~ has_address l (Addr r) -> sorted (insert l r).
Proof.
  intros Hs Hno. unfold insert. cbv zeta.
  destruct (Search_first (less_monotone r Hs)) as [Hlow Hhigh].
  set (i := Search (length l) _) in *.
  pose proof Hs as Hs'. rewrite <- (firstn_skipn i l) in Hs'.
  apply sorted_app in Hs'. destruct Hs' as (H1 & H2 & Hc).
  apply sorted_app. split; [exact H1|]. split.
  - apply sorted_cons. split; [exact H2|].
    intros b Hb. apply In_skipn_node in Hb. destruct Hb as (k & Hk & Hn & ->).
    now apply Hhigh.
  - intros a b Ha [<-|Hb]; [|now apply Hc].
    pose proof Ha as Ha'.
    apply In_firstn_node in Ha. destruct Ha as (k & Hk & Hn & ->).
    destruct (less (node l k) r) eqn:E; [reflexivity|]. exfalso.
    apply Hno. rewrite <- (less_total (node l k) r E (Hlow k Hk)).
    unfold has_address. apply in_map. now apply node_In.
Qed.

Lemma insert_unique (l : Ring) (r : Remote) :
  unique_addresses l -> ~ has_address l (Addr r) ->
  unique_addresses (insert l r).
Proof.
  intros Hu Hno. unfold insert, unique_addresses. cbv zeta.
  set (i := Search (length l) _).
  rewrite map_app. cbn [map].
  apply (NoDup_Add (Add_app (Addr r) (map Addr (firstn i l))
                            (map Addr (skipn i l)))).
  rewrite <- map_app, firstn_skipn. split; assumption.
Qed.

(** C8.  On a ring that is strictly sorted under the Remote order and has
    pairwise distinct addresses, [add r] and [remove r] both complete and
    leave a ring that is again strictly sorted with pairwise distinct
    addresses. *)
Theorem add_remove_keep_invariant (ring : Ring) (r : Remote) :
  sorted ring -> unique_addresses ring ->
  (exists ring', add ring r = Some ring'
                 /\ sorted ring' /\ unique_addresses ring')
  /\ (exists ring', remove ring r = Some ring'
                    /\ sorted ring' /\ unique_addresses ring').
Proof.
  intros Hs Hu.
  destruct (has_address_dec ring (Addr r)) as [Hin | Hno].
  - destruct (@unique_split ring (Addr r) Hu Hin) as (l1 & x & l2 & -> & Hx & H1 & H2).
    pose proof (sorted_drop_middle _ _ _ Hs) as Hs'.
    pose proof (unique_drop_middle _ _ _ Hu) as Hu'.
    assert (Hno : ~ has_address (l1 ++ l2) (Addr r)).
    { rewrite has_address_app. tauto. }
    split.
    + destruct (Compare (Pos x) (Pos r)) eqn:E.
      * apply Compare_eq in E. exists (l1 ++ x :: l2).
        split; [now apply add_same|]. split; assumption.
      * exists (insert (l1 ++ l2) r). split.
        -- apply add_moved; auto. intros Hp.
           rewrite Hp, Compare_refl in E. discriminate.
        -- split; [now apply insert_sorted | now apply insert_unique].
      * exists (insert (l1 ++ l2) r). split.
        -- apply add_moved; auto. intros Hp.
           rewrite Hp, Compare_refl in E. discriminate.
        -- split; [now apply insert_sorted | now apply insert_unique].
    + exists (l1 ++ l2). split; [now apply remove_one|]. split; assumption.
  - split.
    + exists (insert ring r). split; [now apply add_absent|].
      split; [now apply insert_sorted | now apply insert_unique].
    + exists ring. split; [now apply remove_absent|]. split; assumption.
Qed.

(** C9, amended.  On any ring that has no entry with the address of [r],
    [add r] followed by [remove r] gives back exactly the node sequence it
    started from. *)
Theorem add_then_remove_absent (ring : Ring) (r : Remote) :
  ~ has_address ring (Addr r) -> add_then_remove ring r = Some ring.
Proof.
  intro Hno. unfold add_then_remove. rewrite add_absent by assumption.
  unfold insert. cbv zeta.
  set (i := Search (length ring) _).
  rewrite remove_one; auto.
  - now rewrite firstn_skipn.
  - intro H. apply Hno. rewrite <- (firstn_skipn i ring).
    apply has_address_app. now left.
  - intro H. apply Hno. rewrite <- (firstn_skipn i ring).
    apply has_address_app. now right.
Qed.

End AddRemoveFacts.

(** ** [Ring.clean] *)

Module CleanFacts.
Import GoBytes GoSort Shard CompareFacts LessFacts RingInv IndexSpec.
Import SearchFacts SortedFacts IndicesFacts.

(** [after]: with [c] the number of entries not above [pos], the result is
    [c], or 0 when [c] is the length of the ring. *)
Lemma indices_after (l : Ring) (pos : list byte) :
  pos_sorted l ->
  exists c,
    c <= length l
    /\ (forall k, k < c -> Arc.lt pos (pos_at l k) = false)
    /\ (forall k, c <= k -> k < length l -> Arc.lt pos (pos_at l k) = true)
    /\ snd (indices l pos) = Z.of_nat (if c <? length l then c else 0).
Proof.
  intro Hs. unfold indices.
  destruct (first_search pos Hs) as (Hi & Hlow & Hhigh).
  set (i := Search (length l) _) in *.
  destruct (Nat.eqb_spec i (length l)) as [Hin | Hin].
  - exists (length l). split; [lia|]. split; [|split].
    + intros k Hk. apply lt_asym. apply Hlow. lia.
    + intros k Hk Hn. lia.
    + rewrite Nat.ltb_irrefl. reflexivity.
  - assert (Hlt : i < length l) by lia.
    destruct (Compare pos (Pos (node l i))) eqn:Ecmp; cbn [is_zero].
    + destruct (second_search pos i Hs) as (Hj & Hnot & Habove).
      set (j := Search (length l - i) _) in *.
      exists (j + i). split; [lia|]. split; [|split].
      * intros k Hk. destruct (Nat.lt_ge_cases k i) as [Hlo | Hhi].
        -- apply lt_asym. now apply Hlow.
        -- now apply Hnot.
      * exact Habove.
      * cbn [snd]. now destruct (j + i <? length l).
    + exists i. split; [lia|]. split; [|split].
      * intros k Hk. apply lt_asym. now apply Hlow.
      * intros k Hk Hn. eapply lt_le_trans; [|apply (Hs i k Hk Hn)].
        unfold Arc.lt, pos_at. now rewrite Ecmp.
      * cbn [snd]. destruct (Nat.ltb_spec i (length l)); [reflexivity | lia].
    + exfalso. pose proof (Hhigh i (Nat.le_refl i) Hlt) as H.
      apply Compare_gt_lt in Ecmp. unfold Arc.lt, pos_at in H.
      rewrite Ecmp in H. discriminate.
Qed.

(** [at] when some entry has position [pos]: the first such index. *)
Lemma indices_at (l : Ring) (pos : list byte) :
  pos_sorted l ->
  (exists k, k < length l /\ pos_at l k = pos) ->
  exists t,
    t < length l /\ pos_at l t = pos
    /\ (forall k, k < t -> Arc.lt (pos_at l k) pos = true)
    /\ (forall k, t <= k -> k < length l -> Arc.lt (pos_at l k) pos = false)
    /\ snd (fst (indices l pos)) = Z.of_nat t.
Proof.
  intros Hs (k0 & Hk0 & Hpos). unfold indices.
  destruct (first_search pos Hs) as (Hi & Hlow & Hhigh).
  set (i := Search (length l) _) in *.
  assert (Hik : i <= k0).
  { destruct (Nat.lt_ge_cases k0 i) as [Hlo|]; auto.
    apply Hlow in Hlo. rewrite Hpos, lt_irrefl in Hlo. discriminate. }
  destruct (Nat.eqb_spec i (length l)) as [Hin | Hin]; [lia|].
  assert (Hlt : i < length l) by lia.
  destruct (Compare pos (Pos (node l i))) eqn:Ecmp; cbn [is_zero].
  - apply Compare_eq in Ecmp. exists i. repeat (split; auto).
  - exfalso. pose proof (Hs i k0 Hik Hk0) as Hle. rewrite Hpos in Hle.
    apply le_iff in Hle. unfold Arc.lt, pos_at in Hle.
    rewrite Ecmp in Hle. discriminate.
  - exfalso. pose proof (Hhigh i (Nat.le_refl i) Hlt) as H.
    apply Compare_gt_lt in Ecmp. unfold Arc.lt, pos_at in H.
    rewrite Ecmp in H. discriminate.
Qed.

Lemma filter_all (g : Remote -> bool) (l : Ring) :
  (forall x, In x l -> g x = true) -> filter g l = l.
Proof.
  induction l as [|x l IH]; intro H; simpl; [reflexivity|].
  rewrite (H x) by now left. f_equal. apply IH. intros y Hy. apply H. now right.
Qed.

Lemma filter_none (g : Remote -> bool) (l : Ring) :
  (forall x, In x l -> g x = false) -> filter g l = [].
Proof.
  induction l as [|x l IH]; intro H; simpl; [reflexivity|].
  rewrite (H x) by now left. apply IH. intros y Hy. apply H. now right.
Qed.

Lemma three_parts (l : Ring) (t c : nat) :
  t <= c ->
  l = firstn t l ++ firstn (c - t) (skipn t l) ++ skipn c l.
Proof.
  intro H. rewrite <- (firstn_skipn t l) at 1. f_equal.
  rewrite <- (firstn_skipn (c - t) (skipn t l)) at 1. f_equal.
  rewrite skipn_skipn. f_equal. lia.
Qed.

Lemma In_middle_node (l : Ring) (t c : nat) (y : Remote) :
  In y (firstn (c - t) (skipn t l)) ->
  exists k, t <= k /\ k < c /\ k < length l /\ y = node l k.
Proof.
  intro H. apply In_firstn_node in H. destruct H as (k & Hk & Hn & ->).
  rewrite length_skipn in Hn. exists (t + k).
  split; [lia|]. split; [lia|]. split; [lia|].
  unfold node. apply nth_skipn.
Qed.

(** A test that holds exactly on the indices [t .. c-1] keeps [l[t:c]]. *)
Lemma filter_inside (g : Remote -> bool) (l : Ring) (t c : nat) :
  t <= c -> c <= length l ->
  (forall k, k < length l -> g (node l k) = (t <=? k) && (k <? c)) ->
  filter g l = firstn (c - t) (skipn t l).
Proof.
  intros Htc Hc Hg. rewrite (three_parts l Htc) at 1.
  rewrite !filter_app.
  rewrite filter_none, filter_all, filter_none.
  - now rewrite app_nil_r.
  - intros y Hy. apply In_skipn_node in Hy. destruct Hy as (k & Hk & Hn & ->).
    rewrite Hg by assumption.
    destruct (Nat.ltb_spec k c); [lia|]. apply andb_false_r.
  - intros y Hy. apply In_middle_node in Hy.
    destruct Hy as (k & Hk & Hkc & Hn & ->). rewrite Hg by assumption.
    destruct (Nat.leb_spec t k); [|lia]. destruct (Nat.ltb_spec k c); [|lia].
    reflexivity.
  - intros y Hy. apply In_firstn_node in Hy. destruct Hy as (k & Hk & Hn & ->).
    rewrite Hg by assumption. destruct (Nat.leb_spec t k); [lia|]. reflexivity.
Qed.

(** A test that fails exactly on the indices [c .. t-1] keeps
    [l[:c] ++ l[t:]]. *)
Lemma filter_outside (g : Remote -> bool) (l : Ring) (c t : nat) :
  c <= t -> t <= length l ->
  (forall k, k < length l -> g (node l k) = (k <? c) || (t <=? k)) ->
  filter g l = firstn c l ++ skipn t l.
Proof.
  intros Hct Ht Hg. rewrite (three_parts l Hct) at 1.
  rewrite !filter_app.
  rewrite filter_all, filter_none, filter_all.
  - reflexivity.
  - intros y Hy. apply In_skipn_node in Hy. destruct Hy as (k & Hk & Hn & ->).
    rewrite Hg by assumption.
    destruct (Nat.leb_spec t k); [|lia]. apply orb_true_r.
  - intros y Hy. apply In_middle_node in Hy.
    destruct Hy as (k & Hk & Hkc & Hn & ->). rewrite Hg by assumption.
    destruct (Nat.ltb_spec k c); [lia|]. destruct (Nat.leb_spec t k); [lia|].
    reflexivity.
  - intros y Hy. apply In_firstn_node in Hy. destruct Hy as (k & Hk & Hn & ->).
    rewrite Hg by assumption. destruct (Nat.ltb_spec k c); [|lia]. reflexivity.
Qed.

Lemma slice_ok (l : Ring) (lo hi : nat) :
  lo <= hi -> hi <= length l ->
  slice l (Z.of_nat lo) (Z.of_nat hi) = Some (firstn (hi - lo) (skipn lo l)).
Proof.
  intros H1 H2. unfold slice.
  destruct (Z.leb_spec 0 (Z.of_nat lo)); [|lia].
  destruct (Z.leb_spec (Z.of_nat lo) (Z.of_nat hi)); [|lia].
  destruct (Z.leb_spec (Z.of_nat hi) (Z.of_nat (length l))); [|lia].
  now rewrite !Nat2Z.id.
Qed.

(** The entries that [clean] keeps: those not strictly inside the arc. *)
Lemma clean_pos_sorted (l : Ring) (pred succ : list byte) :
  pos_sorted l ->
  (exists k, k < length l /\ pos_at l k = succ) ->
  clean l pred succ
  = Some (filter (fun r => negb (Arc.strictly_inside (Pos r) pred succ)) l).
Proof.
  intros Hs Hsucc. unfold clean.
  destruct (indices_after pred Hs) as (c & Hc & Hle & Hgt & Hfrom).
  destruct (indices_at Hs Hsucc) as (t & Ht & Hpt & Hlow & Hhigh & Hat).
  destruct (indices l pred) as [[b1 a1] from]. cbn [snd] in Hfrom.
  destruct (indices l succ) as [[to0 at_] f2]. cbn [fst snd] in Hat.
  subst from at_.
  destruct (Z.eqb_spec (Z.of_nat t) (-1)) as [|_]; [lia|]. cbn [negb].
  (* how the entry at index k compares with the two ends *)
  assert (Hinside :
            forall k, k < length l ->
                      Arc.strictly_inside (Pos (node l k)) pred succ
                      = if t <? c then negb (k <? c) || (k <? t)
                        else negb (k <? c) && (k <? t)).
  { intros k Hk. unfold Arc.strictly_inside.
    change (Pos (node l k)) with (pos_at l k).
    assert (E1 : Arc.lt pred (pos_at l k) = negb (k <? c)).
    { destruct (Nat.ltb_spec k c); [now apply Hle | now apply Hgt]. }
    assert (E2 : Arc.lt (pos_at l k) succ = (k <? t)).
    { destruct (Nat.ltb_spec k t); [now apply Hlow | now apply Hhigh]. }
    assert (E3 : Arc.lt pred succ = negb (t <? c)).
    { rewrite <- Hpt.
      destruct (Nat.ltb_spec t c); [now apply Hle | now apply Hgt]. }
    rewrite E1, E2, E3. now destruct (t <? c). }
  destruct (Nat.ltb_spec c (length l)) as [Hcn | Hcn].
  - destruct (Z.gtb_spec (Z.of_nat c) (Z.of_nat t)) as [Hgtz | Hlez].
    + (* from > to: keep l[to:from] *)
      rewrite slice_ok by lia. f_equal. symmetry.
      apply filter_inside; try lia.
      intros k Hk. rewrite Hinside by assumption.
      destruct (Nat.ltb_spec t c); [|lia].
      destruct (Nat.ltb_spec k c), (Nat.ltb_spec k t), (Nat.leb_spec t k);
        try reflexivity; lia.
    + (* from <= to: keep l[:from] ++ l[to:] *)
      change 0%Z with (Z.of_nat 0).
      rewrite !slice_ok by lia.
      rewrite Nat.sub_0_r, skipn_O.
      rewrite (@firstn_all2 _ (length l - t) (skipn t l))
        by (rewrite length_skipn; lia).
      f_equal. symmetry.
      apply filter_outside; try lia.
      intros k Hk. rewrite Hinside by assumption.
      destruct (Nat.ltb_spec t c); [lia|].
      destruct (Nat.ltb_spec k c), (Nat.ltb_spec k t), (Nat.leb_spec t k);
        try reflexivity; lia.
  - (* nothing above the predecessor: from = 0 *)
    assert (c = length l) by lia. subst c.
    destruct (Z.gtb_spec (Z.of_nat 0) (Z.of_nat t)) as [Hgtz | Hlez]; [lia|].
    change 0%Z with (Z.of_nat 0).
    rewrite !slice_ok by lia.
    rewrite Nat.sub_0_r, skipn_O.
      rewrite (@firstn_all2 _ (length l - t) (skipn t l))
        by (rewrite length_skipn; lia).
    f_equal. symmetry.
    apply filter_outside; try lia.
    intros k Hk. rewrite Hinside by assumption.
    destruct (Nat.ltb_spec t (length l)); [|lia].
    destruct (Nat.ltb_spec k (length l)), (Nat.ltb_spec k t),
      (Nat.leb_spec t k), (Nat.ltb_spec k 0); try reflexivity; lia.
Qed.

(** C2, amended.  On a ring that is sorted under the Remote order and has
    an entry at [successorPos], [clean predecessorPos successorPos]
    removes exactly the entries whose position lies strictly inside the
    circular arc from [predecessorPos] to [successorPos] (both ends
    excluded); every other entry remains, in ring order. *)
Theorem clean_removes_open_arc (ring : Ring) (predecessorPos successorPos : list byte) :
  sorted ring ->
  (exists r, In r ring /\ Pos r = successorPos) ->
  clean ring predecessorPos successorPos
  = Some (filter (fun r => negb (Arc.strictly_inside
                                   (Pos r) predecessorPos successorPos))
                 ring).
Proof.
  intros Hs (r & Hr & Hp). apply clean_pos_sorted.
  - now apply sorted_pos_sorted.
  - apply In_node in Hr. destruct Hr as (k & Hk & <-). now exists k.
Qed.

End CleanFacts.

(** ** [Ring.getSlot] *)

Module SlotFacts.
Import GoBytes Shard SlotSpec.

Lemma SetBytes_max : SetBytes (Byte.x01 :: repeat Byte.x00 murmur_Size)
                     = (2 ^ (8 * Z.of_nat murmur_Size))%Z.
Proof. vm_compute. reflexivity. Qed.

(** Before the last index the loop reads [next] and [this] from the same
    entry, so no arc is recorded. *)
Lemma getSlot_inner (ring : Ring) (k : nat) :
  k < length ring ->
  fold_left (getSlot_step ring) (seq 0 k) (0%Z, 0) = (0%Z, 0).
Proof.
  induction k as [|k IH]; intro Hk; [reflexivity|].
  rewrite seq_S, fold_left_app, IH by lia. cbn [fold_left Nat.add].
  unfold getSlot_step.
  destruct (Nat.ltb_spec (k + 1) (length ring)); [|lia].
  rewrite Z.sub_diag. reflexivity.
Qed.

(** What [getSlot] computes on every non-empty ring whose last position is
    below one full turn past the first: the midpoint of the arc from the
    last entry round to the first. *)
Lemma getSlot_wrap_arc (ring : Ring) (first last : Remote) :
  nth_error ring 0 = Some first ->
  nth_error ring (length ring - 1) = Some last ->
  (SetBytes (Pos last) < 2 ^ (8 * Z.of_nat murmur_Size) + SetBytes (Pos first))%Z ->
  getSlot ring
  = Some (Bytes (SetBytes (Pos last)
                 + (2 ^ (8 * Z.of_nat murmur_Size) + SetBytes (Pos first)
                    - SetBytes (Pos last)) / 2)%Z).
Proof.
  intros Hfirst Hlast Hlt. unfold getSlot.
  assert (Hn : 0 < length ring).
  { destruct ring; [discriminate | simpl; lia]. }
  replace (length ring) with (S (length ring - 1)) at 1 by lia.
  rewrite seq_S, fold_left_app, getSlot_inner by lia.
  cbn [fold_left Nat.add]. unfold getSlot_step.
  destruct (Nat.ltb_spec (length ring - 1 + 1) (length ring)); [lia|].
  rewrite SetBytes_max. unfold node.
  rewrite (nth_error_nth _ _ _ Hfirst), (nth_error_nth _ _ _ Hlast).
  destruct (Z.ltb_spec 0 (2 ^ (8 * Z.of_nat murmur_Size) + SetBytes (Pos first)
                          - SetBytes (Pos last))); [|lia].
  now rewrite Hlast.
Qed.

(** C3 fails on the code.  On the ring {@0x00.., @0xc0..} the largest arc
    runs from 0x00.. to 0xc0.. and has its midpoint at 0x60..; [getSlot]
    returns 0xe0.., the midpoint of the smaller arc past the last node,
    which is not the midpoint of a largest arc. *)
Theorem getSlot_misses_largest_arc :
  getSlot Demo.ring_00_c0 = Some (Demo.at_byte Byte.xe0)
  /\ is_midpoint_of_largest_arc Demo.ring_00_c0
       (SetBytes (Demo.at_byte Byte.x60))
  /\ ~ is_midpoint_of_largest_arc Demo.ring_00_c0
       (SetBytes (Demo.at_byte Byte.xe0)).
Proof.
  split; [vm_compute; reflexivity|]. split.
  - exists 0. split; [simpl; lia|]. split.
    + intros k Hk. simpl in Hk.
      destruct k as [|[|k]]; [| |lia]; vm_compute; discriminate.
    + vm_compute. reflexivity.
  - intros (i & Hi & Hmax & Hm). simpl in Hi.
    destruct i as [|[|i]]; [| |lia].
    + vm_compute in Hm. discriminate.
    + specialize (Hmax 0). simpl in Hmax.
      assert (H2 : 0 < 2) by lia. apply Hmax in H2.
      vm_compute in H2. apply H2. reflexivity.
Qed.

(** Scenario S6 of the specification holds on the code because there the
    arc past the last node is the largest one. *)
Lemma getSlot_S6 :
  getSlot Demo.ring_00_40 = Some (Demo.at_byte Byte.xa0).
Proof. vm_compute. reflexivity. Qed.

End SlotFacts.

(** ** The dhash node *)

Module DhashFacts.
Import GoBytes Dhash CompareFacts.

Section Workers.
Context {C : Collaborators}.

(** *** sync *)

Lemma run_lastSync (self : Node) (job : SyncJob) :
  lastSync (fst (fst (run self job))) = lastSync self.
Proof.
  unfold run. destruct (RunSync (tree self) job) as [[t p] d]. reflexivity.
Qed.

Lemma sync_loop_lastSync (rounds : nat) :
  forall self next fetched distributed,
    lastSync (fst (fst (sync_loop rounds self next fetched distributed)))
    = lastSync self.
Proof.
  induction rounds as [|rounds IH]; intros self next fetched distributed;
    [reflexivity|].
  cbn [sync_loop].
  pose proof (run_lastSync self
                (mkSync true next (Pos (GetPredecessor (node self)))
                        (GetPosition (node self)) false)) as H1.
  destruct (run self _) as [[self1 put1] del1]. cbn [fst] in H1.
  pose proof (run_lastSync self1
                (mkSync false next (Pos (GetPredecessor (node self1)))
                        (GetPosition (node self)) false)) as H2.
  destruct (run self1 _) as [[self2 put2] del2]. cbn [fst] in H2.
  rewrite IH. congruence.
Qed.

Lemma sync_lastSync (self : Node) :
  lastSync (sync self) = lastSync self.
Proof.
  unfold sync.
  pose proof (sync_loop_lastSync (Z.to_nat (Redundancy (node self) - 1))
                self (GetSuccessor (node self)) 0 0) as H.
  destruct (sync_loop _ self _ 0 0) as [[self' fetched] distributed].
  cbn [fst] in H.
  destruct (negb (fetched =? 0)%Z || negb (distributed =? 0)%Z); exact H.
Qed.

Lemma syncPeriodically_lastSync (ticks : nat) :
  forall self, lastSync (syncPeriodically ticks self) = lastSync self.
Proof.
  induction ticks as [|ticks IH]; intro self; [reflexivity|].
  cbn [syncPeriodically]. destruct (hasState self started); [|reflexivity].
  rewrite IH. apply sync_lastSync.
Qed.

(** C1 fails on the code.  [Node.sync] never stores to [lastSync]: after
    a completed pass the timestamp is what it was before, whatever the
    pass transferred and whatever the clock shows, and the same holds
    after any number of iterations of the periodic loop. *)
Theorem sync_leaves_lastSync (self : Node) :
  lastSync (sync self) = lastSync self
  /\ forall ticks, lastSync (syncPeriodically ticks self) = lastSync self.
Proof.
  split.
  - apply sync_lastSync.
  - intro ticks. apply syncPeriodically_lastSync.
Qed.

(** *** changePosition *)

Lemma pad_loop_spec (fuel : nat) :
  forall newPos,
    murmur_Size - length newPos <= fuel ->
    pad_loop fuel newPos
    = newPos ++ repeat Byte.x00 (murmur_Size - length newPos).
Proof.
  induction fuel as [|fuel IH]; intros newPos Hfuel.
  - replace (murmur_Size - length newPos) with 0 by lia.
    simpl. now rewrite app_nil_r.
  - cbn [pad_loop].
    destruct (Nat.ltb_spec (length newPos) murmur_Size) as [Hlt | Hge].
    + rewrite IH by (rewrite length_app; cbn [length]; lia).
      rewrite length_app. cbn [length].
      replace (murmur_Size - length newPos)
        with (S (murmur_Size - (length newPos + 1))) by lia.
      cbn [repeat]. now rewrite <- app_assoc.
    + replace (murmur_Size - length newPos) with 0 by lia.
      simpl. now rewrite app_nil_r.
Qed.

(** The padding loop right-pads with zero bytes up to [murmur.Size]. *)
Lemma pad_spec (newPos : list byte) :
  pad newPos = newPos ++ repeat Byte.x00 (murmur_Size - length newPos).
Proof. apply pad_loop_spec. lia. Qed.

(** C10.  [changePosition] right-pads the position with zero bytes to
    [murmur.Size]; when the padded position is the current one the call
    changes nothing (no [SetPosition], no store to [lastMigrate], no
    listener call); otherwise it calls [SetPosition] with the padded
    position, stores [lastMigrate] and calls every migrate listener, in
    order, with the old and the padded new position. *)
Theorem changePosition_spec (self : Node) (newPos : list byte)
        (tReroute tMigrate : Z) :
  let padded := newPos ++ repeat Byte.x00 (murmur_Size - length newPos) in
  let oldPos := GetPosition (node self) in
  (padded = oldPos -> changePosition self newPos tReroute tMigrate = self)
  /\ (padded <> oldPos ->
      let self' := changePosition self newPos tReroute tMigrate in
      trace self'
      = trace self
          ++ CalledSetPosition padded
          :: map (fun l => CalledMigrateListener l oldPos padded)
                 (migrateListeners self)
      /\ lastMigrate self' = tMigrate
      /\ node self' = fst (SetPosition (node self) padded)).
Proof.
  intros padded oldPos. unfold changePosition.
  rewrite pad_spec. fold padded. fold oldPos.
  destruct (Compare padded oldPos) eqn:E; cbn [is_zero negb]; split.
  - reflexivity.
  - intro Hne. apply Compare_eq in E. contradiction.
  - intros ->. rewrite Compare_refl in E. discriminate.
  - intros _. destruct (SetPosition (node self) padded) as [d fired].
    destruct fired; cbn; rewrite <- app_assoc; auto.
  - intros ->. rewrite Compare_refl in E. discriminate.
  - intros _. destruct (SetPosition (node self) padded) as [d fired].
    destruct fired; cbn; rewrite <- app_assoc; auto.
Qed.

(** *** Owned *)

(** C5.  [Owned] counts the keys between the predecessor and the node
    itself when the predecessor lies below, adds the two ends of the key
    space when the predecessor lies above (the wrap), and for equal
    positions is 0 when the predecessor is less under the Remote order
    and the whole tree otherwise. *)
Theorem Owned_cases (self : Node) :
  let pred := GetPredecessor (node self) in
  let me := GetRemote (node self) in
  (Arc.lt (Pos pred) (Pos me) = true ->
   Owned self = RealSizeBetween (tree self) (Some (Pos pred))
                                (Some (Pos me)) true false)
  /\ (Arc.lt (Pos me) (Pos pred) = true ->
      Owned self
      = (RealSizeBetween (tree self) (Some (Pos pred)) None true false
         + RealSizeBetween (tree self) None (Some (Pos me)) true false)%Z)
  /\ (Pos pred = Pos me ->
      Owned self = if Less pred me then 0%Z else RealSize (tree self)).
Proof.
  intros pred me. unfold Owned. fold pred. fold me. unfold Arc.lt.
  rewrite (Compare_antisym (Pos pred) (Pos me)).
  destruct (Compare (Pos pred) (Pos me)) eqn:E; cbn; repeat split;
    try discriminate; try reflexivity; intro H;
    rewrite H, Compare_refl in E; discriminate.
Qed.

(** *** clean *)

Lemma syncs_app (a b : list Event) : syncs (a ++ b) = syncs a ++ syncs b.
Proof.
  induction a as [|e a IH]; [reflexivity|].
  destruct e; cbn [app syncs]; rewrite IH; reflexivity.
Qed.

Lemma run_trace (self : Node) (job : SyncJob) :
  trace (fst (fst (run self job))) = trace self ++ [RanSync job].
Proof.
  unfold run. destruct (RunSync (tree self) job) as [[t p] d]. reflexivity.
Qed.

Lemma clean_loop_syncs (nextKey : list byte) (primary : Remote) (n : Z) :
  forall rest self index deleted put,
    syncs (trace (fst (fst (clean_loop self nextKey primary n index rest
                                       deleted put))))
    = syncs (trace self) ++ clean_jobs nextKey primary n index rest.
Proof.
  induction rest as [|owner rest IH]; intros self index deleted put.
  - cbn. now rewrite app_nil_r.
  - cbn [clean_loop clean_jobs].
    pose proof (run_trace self (mkSync true owner nextKey (Pos primary)
                                       (index =? n - 2)%Z)) as Hr.
    destruct (run self _) as [[self' putCount] delCount]. cbn [fst] in Hr.
    rewrite IH, Hr, syncs_app. cbn [syncs]. now rewrite <- app_assoc.
Qed.

Lemma clean_jobs_length (nextKey : list byte) (primary : Remote) (n : Z) :
  forall rest index,
    length (clean_jobs nextKey primary n index rest) = length rest.
Proof.
  induction rest as [|owner rest IH]; intro index; [reflexivity|].
  cbn [clean_jobs length]. now rewrite IH.
Qed.

Lemma clean_jobs_nth (nextKey : list byte) (primary : Remote) (n : Z) :
  forall rest index k owner,
    nth_error rest k = Some owner ->
    nth_error (clean_jobs nextKey primary n index rest) k
    = Some (mkSync true owner nextKey (Pos primary)
                   (index + Z.of_nat k =? n - 2)%Z).
Proof.
  induction rest as [|o rest IH]; intros index k owner Hk.
  - destruct k; discriminate.
  - destruct k as [|k]; cbn [clean_jobs nth_error] in *.
    + inversion Hk; subst. now rewrite Z.add_0_r.
    + rewrite (IH _ _ _ Hk). do 3 f_equal. lia.
Qed.

Lemma syncs_listeners (ls : list CleanListener) (deleted put : Z) :
  syncs (map (fun l => CalledCleanListener l deleted put) ls) = [].
Proof. induction ls as [|l ls IH]; [reflexivity | exact IH]. Qed.

(** C6.  On a clean tick that finds a next key: when the local node is
    among the owners of that key the tick changes nothing, in particular
    it runs no sync; otherwise it runs one push sync per owner, in the
    order of the owner list, each over the range from the next key to
    the position of the first owner, and the sync for the owner at index
    [k] has [Destroy] set exactly when [k] is the second-to-last index
    of the owner list. *)
Theorem clean_tick (self : Node) (nextKey : list byte)
        (os : list Remote) (isOwner : bool) :
  circularNext self (GetPosition (node self)) = (nextKey, true) ->
  owners self nextKey = (os, isOwner) ->
  (isOwner = true -> clean self = self)
  /\ (isOwner = false ->
      exists jobs,
        syncs (trace (clean self)) = syncs (trace self) ++ jobs
        /\ length jobs = length os
        /\ forall k owner,
             nth_error os k = Some owner ->
             nth_error jobs k
             = Some (mkSync true owner nextKey
                            (Pos (nth 0 os Shard.noRemote))
                            (k + 2 =? length os))).
Proof.
  intros Hnext Howners. unfold clean. rewrite Hnext, Howners. split.
  - intros ->. reflexivity.
  - intros ->. cbn [negb].
    exists (clean_jobs nextKey (nth 0 os Shard.noRemote)
                       (Z.of_nat (length os)) 0 os).
    split; [|split].
    + pose proof (clean_loop_syncs nextKey (nth 0 os Shard.noRemote)
                    (Z.of_nat (length os)) os self 0 0 0) as H.
      destruct (clean_loop self nextKey _ _ 0 os 0 0)
        as [[self' deleted] put].
      cbn [fst] in H.
      destruct (negb (deleted =? 0)%Z || negb (put =? 0)%Z); [|exact H].
      cbn [emit trace]. now rewrite syncs_app, syncs_listeners, app_nil_r.
    + apply clean_jobs_length.
    + intros k owner Hk. rewrite (clean_jobs_nth _ _ _ _ 0 _ Hk).
      do 2 f_equal.
      destruct (Nat.eqb_spec (k + 2) (length os));
        destruct (Z.eqb_spec (0 + Z.of_nat k) (Z.of_nat (length os) - 2));
        try reflexivity; lia.
Qed.

(** *** migrate *)

Lemma successor_removed_trace (self : Node) (tReroute : Z) :
  trace (successor_removed self tReroute)
  = trace self ++ [CalledRemoveNode (GetSuccessor (node self))].
Proof.
  unfold successor_removed.
  destruct (RemoveNode (node self) (GetSuccessor (node self))) as [d fired].
  now destruct fired.
Qed.

(** C4.  A migrate tick ends in one of three ways.  It calls
    [changePosition] (the only place that calls [SetPosition]) and then
    every gate has passed: the quiescence window has elapsed, the
    successor answered [DHash.Owned], [mySize > 10],
    [mySize > succSize * 1.5] (written [3 * succSize < 2 * mySize]), a
    marker existed at the wanted rank and the wanted position lies
    strictly inside the arc between the predecessor and the node (the
    test is [common.BetweenIE], which is modelled from the specification).
    Or the probe failed and the successor is removed from the ring.  Or
    the node is left exactly as it was. *)
Theorem migrate_gated (self : Node) (now tReroute tMigrate : Z) :
  let succ := GetSuccessor (node self) in
  let pred := GetPredecessor (node self) in
  let self' := migrate self now tReroute tMigrate in
  (exists succSize wantedPos,
      quiescent self now
      /\ CallOwned (tree self) succ = Some succSize
      /\ (10 < Owned self)%Z
      /\ (3 * succSize < 2 * Owned self)%Z
      /\ wanted self succ (Z.quot (Owned self - succSize) 2)
         = (wantedPos, true)
      /\ Arc.strictly_inside wantedPos (Pos pred) (GetPosition (node self))
         = true
      /\ self' = changePosition self wantedPos tReroute tMigrate)
  \/ (quiescent self now
      /\ CallOwned (tree self) succ = None
      /\ self' = successor_removed self tReroute)
  \/ self' = self.
Proof.
  intros succ pred self'. subst self'. unfold migrate. fold succ.
  destruct (Z.gtb_spec (now + -1 * migrateWaitFactor * syncInterval)
                       (Max64 (lastSync self) (lastReroute self)
                              (lastMigrate self))) as [Hq | Hq];
    [|now right; right].
  assert (Hquiet : quiescent self now).
  { unfold quiescent. unfold Max64 in Hq. lia. }
  destruct (CallOwned (tree self) succ) as [succSize|] eqn:Ecall.
  - destruct (Z.gtb_spec (Owned self) 10) as [H10 | H10];
      [|now right; right].
    unfold exceeds_hysteresis.
    destruct (Z.ltb_spec (3 * succSize) (2 * Owned self)) as [Hh | Hh];
      [|now right; right].
    cbn [andb].
    destruct (wanted self succ (Z.quot (Owned self - succSize) 2))
      as [wantedPos existed] eqn:Ew.
    destruct existed; cbn [negb]; [|now right; right].
    destruct (BetweenIE wantedPos (Pos (GetPredecessor (node self)))
                        (GetPosition (node self))) eqn:Eb;
      [|now right; right].
    left. exists succSize, wantedPos.
    split; [exact Hquiet|]. split; [reflexivity|].
    split; [lia|]. split; [lia|]. split; [exact Ew|].
    split; [exact Eb | reflexivity].
  - right. left. repeat split; auto.
Qed.

End Workers.
End DhashFacts.

(** ** The statements above on concrete rings and nodes *)

Module Examples.
Import GoBytes Shard RingInv IndexSpec Demo.

Ltac sorted_by_computation :=
  unfold sorted; repeat (constructor; try reflexivity).

Ltac distinct_by_computation :=
  unfold unique_addresses;
  repeat (constructor; [simpl; intuition discriminate|]); constructor.

Lemma ring5_sorted : sorted ring5.
Proof. sorted_by_computation. Defined.

Lemma ring5_unique : unique_addresses ring5.
Proof. distinct_by_computation. Defined.

Lemma ring_shared_sorted : sorted ring_shared.
Proof. sorted_by_computation. Defined.

(** C2 as stated fails: with predecessor 0x20.. and successor 0x40.. on the
    ring 0x10.. 0x20.. 0x30.. 0x40.. 0x50.., [clean] does not leave the
    entries of the arc from 0x20.. (exclusive) to 0x40.. (inclusive): it
    keeps 0x10.., 0x20.., 0x40.., 0x50.. and removes 0x30... *)
Lemma clean_keeps_outside_arc :
  clean ring5 (at_byte Byte.x20) (at_byte Byte.x40)
  <> Some (filter (fun r => Arc.in_arc (Pos r) (at_byte Byte.x20)
                                        (at_byte Byte.x40))
                  ring5).
Proof. vm_compute. discriminate. Qed.

Lemma clean_removes_open_arc_witness :
  sorted ring5
  /\ (exists r, In r ring5 /\ Pos r = at_byte Byte.x40)
  /\ clean ring5 (at_byte Byte.x20) (at_byte Byte.x40)
     = Some [mkRemote (at_byte Byte.x10) "a:9191";
             mkRemote (at_byte Byte.x20) "b:9191";
             mkRemote (at_byte Byte.x40) "d:9191";
             mkRemote (at_byte Byte.x50) "e:9191"].
Proof.
  assert (H : exists r, In r ring5 /\ Pos r = at_byte Byte.x40).
  { exists (mkRemote (at_byte Byte.x40) "d:9191"). split; [|reflexivity].
    simpl. auto. }
  split; [exact ring5_sorted|]. split; [exact H|].
  exact (@CleanFacts.clean_removes_open_arc ring5 (at_byte Byte.x20)
           (at_byte Byte.x40) ring5_sorted H).
Defined.

(** Two entries share the position 0x80..: [before] is the entry below
    them, [at] the first of the two, [after] the entry above them. *)
Lemma indices_sorted_witness :
  ring_shared <> [] /\ sorted ring_shared
  /\ is_before ring_shared (at_byte Byte.x80) 0
  /\ is_at ring_shared (at_byte Byte.x80) 1
  /\ is_after ring_shared (at_byte Byte.x80) 3.
Proof.
  assert (H : ring_shared <> []) by discriminate.
  split; [exact H|]. split; [exact ring_shared_sorted|].
  exact (@IndicesFacts.indices_sorted ring_shared (at_byte Byte.x80) H
           ring_shared_sorted).
Defined.

Lemma add_remove_keep_invariant_witness :
  sorted ring5 /\ unique_addresses ring5
  /\ (exists ring', add ring5 (mkRemote (at_byte Byte.x25) "a:9191") = Some ring'
                    /\ sorted ring' /\ unique_addresses ring')
  /\ (exists ring', remove ring5 (mkRemote (at_byte Byte.x25) "a:9191") = Some ring'
                    /\ sorted ring' /\ unique_addresses ring').
Proof.
  split; [exact ring5_sorted|]. split; [exact ring5_unique|].
  exact (@AddRemoveFacts.add_remove_keep_invariant ring5
           (mkRemote (at_byte Byte.x25) "a:9191") ring5_sorted ring5_unique).
Defined.

(** C9 as stated fails: the node of address b:9191 sits at 0x80..; adding
    it at 0xc0.. moves it, and removing it then leaves the ring without
    it. *)
Lemma add_then_remove_present :
  add_then_remove [A; B] B' = Some [A]
  /\ add_then_remove [A; B] B' <> Some [A; B].
Proof. split; [vm_compute; reflexivity | vm_compute; discriminate]. Qed.

Lemma add_then_remove_absent_witness :
  ~ has_address [A; B] (Addr Cn)
  /\ add_then_remove [A; B] Cn = Some [A; B].
Proof.
  assert (H : ~ has_address [A; B] (Addr Cn)).
  { unfold has_address. simpl. intuition discriminate. }
  split; [exact H|].
  exact (@AddRemoveFacts.add_then_remove_absent [A; B] Cn H).
Defined.

(** A node that completes sync passes which distribute twelve keys and
    call the sync listener still has [lastSync = 0], so the quiescence
    gate of [migrate] sees no sync at any clock reading. *)
Lemma lastSync_stays_zero :
  Dhash.lastSync (Dhash.syncPeriodically 3 (node_c twelve_keys (Some 1%Z))) = 0%Z
  /\ In (Dhash.CalledSyncListener 7 0 12)
        (Dhash.trace (Dhash.sync (node_c twelve_keys (Some 1%Z)))).
Proof. split; [vm_compute; reflexivity | vm_compute; auto]. Qed.

Lemma changePosition_spec_witness :
  ([Byte.x88] ++ repeat Byte.x00 (murmur_Size - 1) <> at_byte Byte.xc0)
  /\ Dhash.trace (Dhash.changePosition (node_c twelve_keys None)
                                       [Byte.x88] 1 2)
     = [Dhash.CalledSetPosition (at_byte Byte.x88);
        Dhash.CalledMigrateListener 9 (at_byte Byte.xc0) (at_byte Byte.x88)]
  /\ Dhash.lastMigrate (Dhash.changePosition (node_c twelve_keys None)
                                             [Byte.x88] 1 2) = 2%Z
  /\ Dhash.changePosition (node_c twelve_keys None) [Byte.xc0] 1 2
     = node_c twelve_keys None.
Proof.
  assert (H : [Byte.x88] ++ repeat Byte.x00 (murmur_Size - 1)
              <> at_byte Byte.xc0) by discriminate.
  split; [exact H|].
  pose proof (proj2 (@DhashFacts.changePosition_spec env
                       (node_c twelve_keys None) [Byte.x88] 1 2) H) as H1.
  destruct H1 as (Ht & Hm & _).
  split; [exact Ht|]. split; [exact Hm|].
  exact (proj1 (@DhashFacts.changePosition_spec env
                  (node_c twelve_keys None) [Byte.xc0] 1 2) eq_refl).
Defined.

Lemma Owned_cases_witness :
  Arc.lt (Pos B) (Pos Cn) = true
  /\ Dhash.Owned (node_c twelve_keys None) = 12%Z.
Proof.
  split; [reflexivity|].
  exact (proj1 (@DhashFacts.Owned_cases env (node_c twelve_keys None)) eq_refl).
Defined.

Lemma clean_tick_witness :
  Dhash.circularNext node_stale (at_byte Byte.xc0) = (at_byte Byte.x10, true)
  /\ Dhash.owners node_stale (at_byte Byte.x10) = ([D40; B], false)
  /\ exists jobs,
       Dhash.syncs (Dhash.trace (Dhash.clean node_stale)) = [] ++ jobs
       /\ length jobs = 2
       /\ forall k owner,
            nth_error [D40; B] k = Some owner ->
            nth_error jobs k
            = Some (Dhash.mkSync true owner (at_byte Byte.x10) (Pos D40)
                                 (k + 2 =? 2)).
Proof.
  split; [reflexivity|]. split; [reflexivity|].
  exact (proj2 (@DhashFacts.clean_tick env node_stale (at_byte Byte.x10)
                  [D40; B] false eq_refl eq_refl) eq_refl).
Defined.

Lemma migrate_gated_witness :
  Dhash.trace (Dhash.migrate (node_c twelve_keys (Some 1%Z))
                                5000000000 5000000001 5000000002)
     = [Dhash.CalledSetPosition (at_byte Byte.x88);
        Dhash.CalledMigrateListener 9 (at_byte Byte.xc0) (at_byte Byte.x88)]
  /\ ((exists succSize wantedPos,
          Dhash.quiescent (node_c twelve_keys (Some 1%Z)) 5000000000
          /\ Some 1%Z = Some succSize
          /\ (10 < 12)%Z
          /\ (3 * succSize < 2 * 12)%Z
          /\ Dhash.wanted (node_c twelve_keys (Some 1%Z)) A
                          (Z.quot (12 - succSize) 2) = (wantedPos, true)
          /\ Arc.strictly_inside wantedPos (Pos B) (at_byte Byte.xc0) = true
          /\ Dhash.migrate (node_c twelve_keys (Some 1%Z))
                           5000000000 5000000001 5000000002
             = Dhash.changePosition (node_c twelve_keys (Some 1%Z)) wantedPos
                                    5000000001 5000000002)
      \/ (Dhash.quiescent (node_c twelve_keys (Some 1%Z)) 5000000000
          /\ Some 1%Z = None
          /\ Dhash.migrate (node_c twelve_keys (Some 1%Z))
                           5000000000 5000000001 5000000002
             = Dhash.successor_removed (node_c twelve_keys (Some 1%Z))
                                       5000000001)
      \/ Dhash.migrate (node_c twelve_keys (Some 1%Z))
                       5000000000 5000000001 5000000002
         = node_c twelve_keys (Some 1%Z)).
Proof.
  split; [reflexivity|].
  exact (@DhashFacts.migrate_gated env (node_c twelve_keys (Some 1%Z))
           5000000000 5000000001 5000000002).
Defined.

End Examples.

(** ** More on the ring: what [add] and [remove] do to the entries *)

Module RingMore.
Import GoBytes GoSort Shard CompareFacts LessFacts RingInv IndexSpec.
Import SearchFacts SortedFacts RangeFacts AddRemoveFacts CleanFacts RingOps.

(** X1.  [Remote.less] is a strict total order: no entry is less than
    itself, the relation is transitive, and two different entries are
    always ordered one way or the other. *)
Theorem less_strict_total_order :
  (forall a, less a a = false)
  /\ (forall a b c, less a b = true -> less b c = true -> less a c = true)
  /\ (forall a b, less a b = true \/ a = b \/ less b a = true).
Proof.
  split; [exact less_irrefl|]. split; [exact less_trans|].
  intros a b. destruct (less a b) eqn:E1; [now left|].
  destruct (less b a) eqn:E2; [now right; right|].
  right. left. now apply less_total.
Qed.

Lemma In_insert (l : Ring) (r x : Remote) :
  In x (insert l r) <-> x = r \/ In x l.
Proof.
  unfold insert. cbv zeta.
  set (i := Search (length l) _).
  rewrite <- (firstn_skipn i l) at 3.
  rewrite !in_app_iff. cbn [In]. intuition congruence.
Qed.

Lemma same_entry (x r : Remote) : Addr x = Addr r -> Pos x = Pos r -> x = r.
Proof. destruct x, r; simpl; congruence. Qed.

Lemma not_has_address (l : Ring) (a : string) (x : Remote) :
  ~ has_address l a -> In x l -> Addr x <> a.
Proof.
  intros Hno Hx E. apply Hno. unfold has_address. rewrite <- E.
  now apply in_map.
Qed.

(** The three outcomes of [add] on a ring with unique addresses. *)
Lemma add_outcome (ring : Ring) (r : Remote) :
  unique_addresses ring ->
  (~ has_address ring (Addr r) /\ add ring r = Some (insert ring r))
  \/ (exists l1 l2, ring = l1 ++ r :: l2
                    /\ ~ has_address l1 (Addr r) /\ ~ has_address l2 (Addr r)
                    /\ add ring r = Some ring)
  \/ (exists l1 x l2, ring = l1 ++ x :: l2
                      /\ Addr x = Addr r /\ Pos x <> Pos r
                      /\ ~ has_address (l1 ++ l2) (Addr r)
                      /\ add ring r = Some (insert (l1 ++ l2) r)).
Proof.
  intro Hu. destruct (has_address_dec ring (Addr r)) as [Hin | Hno].
  - destruct (@unique_split ring (Addr r) Hu Hin)
      as (l1 & x & l2 & -> & Hx & H1 & H2).
    right. destruct (Compare (Pos x) (Pos r)) eqn:E.
    + apply Compare_eq in E. pose proof (@same_entry x r Hx E) as Hxr.
      subst x. left. exists l1, l2.
      split; [reflexivity|]. split; [exact H1|]. split; [exact H2|].
      now apply add_same.
    + right. exists l1, x, l2.
      assert (Hp : Pos x <> Pos r).
      { intro Hp. rewrite Hp, Compare_refl in E. discriminate. }
      split; [reflexivity|]. split; [exact Hx|]. split; [exact Hp|].
      split; [rewrite has_address_app; tauto | now apply add_moved].
    + right. exists l1, x, l2.
      assert (Hp : Pos x <> Pos r).
      { intro Hp. rewrite Hp, Compare_refl in E. discriminate. }
      split; [reflexivity|]. split; [exact Hx|]. split; [exact Hp|].
      split; [rewrite has_address_app; tauto | now apply add_moved].
  - left. split; [exact Hno | now apply add_absent].
Qed.

Lemma add_entries (ring : Ring) (r : Remote) :
  unique_addresses ring ->
  exists ring',
    add ring r = Some ring'
    /\ forall x, In x ring' <-> x = r \/ (In x ring /\ Addr x <> Addr r).
Proof.
  intro Hu.
  destruct (@add_outcome ring r Hu)
    as [[Hno Hadd] | [(l1 & l2 & -> & H1 & H2 & Hadd)
                     | (l1 & y & l2 & -> & Hy & Hp & Hno & Hadd)]].
  - exists (insert ring r). split; [exact Hadd|].
    intro x. rewrite In_insert. split; intros [H | H]; auto.
    + right. split; [exact H|]. now apply (@not_has_address _ _ _ Hno).
    + right. tauto.
  - exists (l1 ++ r :: l2). split; [exact Hadd|].
    intro x. rewrite !in_app_iff. cbn [In]. split.
    + intros [H | [H | H]]; auto.
      * right. split; [now left|].
        now apply (@not_has_address _ _ _ H1).
      * right. split; [right; now right|].
        now apply (@not_has_address _ _ _ H2).
    + intros [-> | [H _]]; [right; now left | exact H].
  - exists (insert (l1 ++ l2) r). split; [exact Hadd|].
    intro x. rewrite In_insert, !in_app_iff. cbn [In]. split.
    + intros [H | H]; auto. right. split; [tauto|].
      apply (@not_has_address _ _ _ Hno). now apply in_app_iff.
    + intros [H | [[H | [H | H]] Hne]]; auto.
      subst y. contradiction.
Qed.

(** X2.  On a ring with unique addresses [add r] completes, and the
    entries afterwards are [r] together with the old entries of every
    other address: an old entry with the address of [r] is replaced. *)
Theorem add_members (ring : Ring) (r : Remote) :
  unique_addresses ring ->
  exists ring',
    add ring r = Some ring'
    /\ forall x, In x ring' <-> x = r \/ (In x ring /\ Addr x <> Addr r).
Proof. apply add_entries. Qed.

(** X3.  [add] is idempotent on a ring with unique addresses: adding the
    same Remote a second time returns at once and leaves the ring as the
    first call left it. *)
Theorem add_idempotent (ring ring' : Ring) (r : Remote) :
  unique_addresses ring ->
  add ring r = Some ring' ->
  add ring' r = Some ring'.
Proof.
  intros Hu Hadd.
  assert (Hins : forall l, ~ has_address l (Addr r) ->
                           add (insert l r) r = Some (insert l r)).
  { intros l Hno. unfold insert. cbv zeta.
    set (i := Search (length l) _).
    apply add_same; auto.
    intro H. apply Hno. rewrite <- (firstn_skipn i l).
    apply has_address_app. now left. }
  destruct (@add_outcome ring r Hu)
    as [[Hno Hadd'] | [(l1 & l2 & -> & H1 & H2 & Hadd')
                      | (l1 & y & l2 & -> & Hy & Hp & Hno & Hadd')]];
    rewrite Hadd' in Hadd; inversion Hadd; subst ring'.
  - now apply Hins.
  - exact Hadd'.
  - now apply Hins.
Qed.

(** X4.  On a ring with unique addresses [remove r] completes and leaves
    exactly the entries whose address differs from the address of [r], in
    their old order; the position of [r] plays no part. *)
Theorem remove_filters (ring : Ring) (r : Remote) :
  unique_addresses ring ->
  remove ring r
  = Some (filter (fun x => negb (String.eqb (Addr x) (Addr r))) ring).
Proof.
  intro Hu.
  assert (Hkeep : forall l, ~ has_address l (Addr r) ->
                            filter (fun x => negb (String.eqb (Addr x) (Addr r))) l
                            = l).
  { intros l Hno. apply filter_all. intros x Hx.
    apply negb_true_iff. apply String.eqb_neq.
    now apply (@not_has_address _ _ _ Hno). }
  destruct (has_address_dec ring (Addr r)) as [Hin | Hno].
  - destruct (@unique_split ring (Addr r) Hu Hin)
      as (l1 & x & l2 & -> & Hx & H1 & H2).
    rewrite remove_one by assumption.
    rewrite filter_app. cbn [filter].
    rewrite Hx, String.eqb_refl. cbn [negb].
    now rewrite !Hkeep.
  - rewrite remove_absent by assumption. now rewrite Hkeep.
Qed.

Lemma shift_down_length (index len : nat) (arr : list Remote) :
  index + 1 <= len -> len <= length arr ->
  length (shift_down index len arr) = length arr.
Proof.
  intros H1 H2. unfold shift_down.
  rewrite !length_app, !length_firstn, !length_skipn. lia.
Qed.

(** The cells from [len - 1] on are not touched by the shift. *)
Lemma shift_down_tail (index len : nat) (arr : list Remote) (j : nat) :
  index + 1 <= len -> len <= length arr -> len - 1 <= j ->
  nth j (shift_down index len arr) noRemote = nth j arr noRemote.
Proof.
  intros H1 H2 Hj. unfold shift_down.
  rewrite app_nth2 by (rewrite length_firstn; lia).
  rewrite app_nth2 by (rewrite !length_firstn, length_skipn; lia).
  rewrite nth_skipn. f_equal.
  rewrite !length_firstn, length_skipn. lia.
Qed.

(** Once the slice has been shortened, or while a match lies ahead, a
    matching entry in the last cell ends the loop of [remove] in a panic:
    the last cell is never overwritten and is visited when the slice is
    already too short for [self.Nodes[index+1:]]. *)
Lemma remove_loop_panics (a : string) (n : nat) :
  forall m k arr len,
    k + S m = n -> length arr = n -> len <= n ->
    String.eqb (Addr (nth (n - 1) arr noRemote)) a = true ->
    (len < n
     \/ exists j, k <= j /\ j < n - 1
                  /\ String.eqb (Addr (nth j arr noRemote)) a = true) ->
    remove_loop a (seq k (S m)) arr len = Panic.
Proof.
  induction m as [|m IH]; intros k arr len Hk Hn Hlen Hlast Hahead.
  - cbn [seq remove_loop].
    replace k with (n - 1) by lia. rewrite Hlast.
    destruct (Nat.leb_spec (n - 1 + 1) len) as [Hle|]; [|reflexivity].
    destruct Hahead as [Hlt | (j & Hj1 & Hj2 & _)]; lia.
  - change (seq k (S (S m))) with (k :: seq (S k) (S m)).
    cbn [remove_loop].
    destruct (String.eqb (Addr (nth k arr noRemote)) a) eqn:Ecur.
    + destruct (Nat.leb_spec (k + 1) len) as [Hle|]; [|reflexivity].
      apply IH; try lia.
      * rewrite shift_down_length; lia.
      * rewrite shift_down_tail by lia. exact Hlast.
    + apply IH; try lia; auto.
      destruct Hahead as [Hlt | (j & Hj1 & Hj2 & Hj3)]; [now left|].
      right. exists j. split; [|split; assumption].
      destruct (Nat.eq_dec j k) as [->|]; [congruence | lia].
Qed.

(** X5.  [remove r] panics (slice bounds out of range) on every ring in
    which the last entry has the address of [r] and some earlier entry has
    it too: after the first removal the loop still visits the last cell of
    the old slice, finds the address again and slices past the end. *)
Theorem remove_panics_on_duplicate (l1 l2 : Ring) (x y r : Remote) :
  Addr x = Addr r -> Addr y = Addr r ->
  remove (l1 ++ x :: l2 ++ [y]) r = None.
Proof.
  intros Hx Hy. unfold remove.
  set (ring := l1 ++ x :: l2 ++ [y]).
  assert (Hn : length ring = length l1 + S (length l2) + 1).
  { unfold ring. rewrite length_app. cbn [length]. rewrite length_app.
    cbn [length]. lia. }
  replace (seq 0 (length ring))
    with (seq 0 (S (length l1 + S (length l2)))) by (f_equal; lia).
  rewrite (@remove_loop_panics (Addr r) (length ring)
             (length l1 + S (length l2)) 0 ring (length ring));
    try lia; auto.
  - rewrite Hn.
    replace (length l1 + S (length l2) + 1 - 1)
      with (length l1 + S (length l2)) by lia.
    unfold ring. rewrite app_nth2 by lia.
    replace (length l1 + S (length l2) - length l1)
      with (S (length l2)) by lia.
    cbn [nth]. rewrite app_nth2 by lia. rewrite Nat.sub_diag. cbn [nth].
    rewrite Hy. apply String.eqb_refl.
  - right. exists (length l1). split; [lia|]. split; [lia|].
    unfold ring. rewrite app_nth2 by lia. rewrite Nat.sub_diag. cbn [nth].
    rewrite Hx. apply String.eqb_refl.
Qed.

(** Two strictly sorted rings with the same entries are the same
    sequence. *)
Lemma sorted_ext (l1 : Ring) :
  forall l2, sorted l1 -> sorted l2 ->
             (forall x, In x l1 <-> In x l2) -> l1 = l2.
Proof.
  induction l1 as [|a l1 IH]; intros [|b l2] H1 H2 Hm.
  - reflexivity.
  - exfalso. apply (proj2 (Hm b)). now left.
  - exfalso. apply (proj1 (Hm a)). now left.
  - apply sorted_cons in H1, H2. destruct H1 as [H1 Ha], H2 as [H2 Hb].
    assert (Hab : a = b).
    { destruct (proj1 (Hm a) (or_introl eq_refl)) as [E | Hin]; [now symmetry|].
      destruct (proj2 (Hm b) (or_introl eq_refl)) as [E | Hin']; [exact E|].
      pose proof (less_trans _ _ _ (Ha _ Hin') (Hb _ Hin)) as Hc.
      rewrite less_irrefl in Hc. discriminate. }
    subst b. f_equal. apply IH; auto.
    intro x. split; intro Hx.
    + destruct (proj1 (Hm x) (or_intror Hx)) as [E | Hin]; [|exact Hin].
      subst x. pose proof (Ha _ Hx) as Hc.
      rewrite less_irrefl in Hc. discriminate.
    + destruct (proj2 (Hm x) (or_intror Hx)) as [E | Hin]; [|exact Hin].
      subst x. pose proof (Hb _ Hx) as Hc.
      rewrite less_irrefl in Hc. discriminate.
Qed.

Lemma add_invariant (ring ring' : Ring) (r : Remote) :
  sorted ring -> unique_addresses ring ->
  add ring r = Some ring' ->
  sorted ring' /\ unique_addresses ring'.
Proof.
  intros Hs Hu Hadd.
  destruct (@add_outcome ring r Hu)
    as [[Hno Hadd'] | [(l1 & l2 & -> & H1 & H2 & Hadd')
                      | (l1 & y & l2 & -> & Hy & Hp & Hno & Hadd')]];
    rewrite Hadd' in Hadd; inversion Hadd; subst ring'.
  - split; [now apply insert_sorted | now apply insert_unique].
  - split; assumption.
  - apply sorted_drop_middle in Hs. apply unique_drop_middle in Hu.
    split; [now apply insert_sorted | now apply insert_unique].
Qed.

(** X6.  On a ring that is strictly sorted with unique addresses,
    [remove r] followed by [add r] for an entry [r] of the ring gives the
    ring back: the search of [add] finds the place the entry was taken
    from. *)
Theorem remove_then_add_present (ring : Ring) (r : Remote) :
  sorted ring -> unique_addresses ring -> In r ring ->
  remove_then_add ring r = Some ring.
Proof.
  intros Hs Hu Hin. unfold remove_then_add.
  assert (Hhas : has_address ring (Addr r)).
  { unfold has_address. now apply in_map. }
  destruct (@unique_split ring (Addr r) Hu Hhas)
    as (l1 & x & l2 & -> & Hx & H1 & H2).
  assert (Hxr : x = r).
  { apply in_app_iff in Hin. cbn [In] in Hin.
    destruct Hin as [Hin | [E | Hin]]; [|exact E|].
    - exfalso. apply H1. unfold has_address. now apply in_map.
    - exfalso. apply H2. unfold has_address. now apply in_map. }
  subst x. rewrite remove_one by assumption.
  assert (Hno : ~ has_address (l1 ++ l2) (Addr r)).
  { rewrite has_address_app. tauto. }
  rewrite add_absent by assumption. f_equal.
  apply sorted_ext.
  - apply insert_sorted; [now apply sorted_drop_middle in Hs | exact Hno].
  - exact Hs.
  - intro y. rewrite In_insert, !in_app_iff. cbn [In].
    intuition congruence.
Qed.

(** X7.  On a ring that is strictly sorted with unique addresses, adding
    two Remotes of different addresses gives the same ring in either
    order, and neither order panics. *)
Theorem add_add_commutes (ring : Ring) (r1 r2 : Remote) :
  sorted ring -> unique_addresses ring -> Addr r1 <> Addr r2 ->
  exists result,
    add_add ring r1 r2 = Some result /\ add_add ring r2 r1 = Some result.
Proof.
  intros Hs Hu Hne. unfold add_add.
  destruct (@add_entries ring r1 Hu) as (ring1 & Hadd1 & Hm1).
  destruct (@add_entries ring r2 Hu) as (ring2 & Hadd2 & Hm2).
  destruct (@add_invariant ring ring1 r1 Hs Hu Hadd1) as [Hs1 Hu1].
  destruct (@add_invariant ring ring2 r2 Hs Hu Hadd2) as [Hs2 Hu2].
  destruct (@add_entries ring1 r2 Hu1) as (ring12 & Hadd12 & Hm12).
  destruct (@add_entries ring2 r1 Hu2) as (ring21 & Hadd21 & Hm21).
  destruct (@add_invariant ring1 ring12 r2 Hs1 Hu1 Hadd12) as [Hs12 _].
  destruct (@add_invariant ring2 ring21 r1 Hs2 Hu2 Hadd21) as [Hs21 _].
  exists ring12. rewrite Hadd1, Hadd2, Hadd12, Hadd21.
  split; [reflexivity|]. f_equal. apply sorted_ext; auto.
  intro x. rewrite Hm12, Hm21, Hm1, Hm2. split.
  - intros [-> | [[-> | [Hx Hx1]] Hx2]];
      [ right; split; [now left | congruence]
      | now left
      | right; split; [right; split; assumption | assumption] ].
  - intros [-> | [[-> | [Hx Hx2]] Hx1]];
      [ right; split; [now left | congruence]
      | now left
      | right; split; [right; split; assumption | assumption] ].
Qed.

(** The three indices stay inside a non-empty ring, whatever the order of
    its entries. *)
Lemma indices_bounds (ring : Ring) (pos : list byte) :
  ring <> [] ->
  let n := Z.of_nat (length ring) in
  let before := fst (fst (indices ring pos)) in
  let at_ := snd (fst (indices ring pos)) in
  let after := snd (indices ring pos) in
  (0 <= before < n)%Z
  /\ (at_ = (-1)%Z
      \/ ((0 <= at_ < n)%Z /\ Pos (node ring (Z.to_nat at_)) = pos))
  /\ (0 <= after < n)%Z.
Proof.
  intro Hne.
  assert (Hn : 0 < length ring) by (destruct ring; [congruence | simpl; lia]).
  unfold indices. cbv zeta.
  pose proof (Search_le (length ring)
                (fun i => lt_one (Compare pos (Pos (node ring i))))) as Hi.
  set (i := Search (length ring) _) in *.
  destruct (Nat.eqb_spec i (length ring)) as [E | E]; cbn [fst snd].
  - split; [lia|]. split; [now left | lia].
  - assert (Hb : (0 <= (if (i =? 0)%nat then Z.of_nat (length ring) - 1
                        else Z.of_nat i - 1) < Z.of_nat (length ring))%Z).
    { destruct (Nat.eqb_spec i 0); lia. }
    destruct (Compare pos (Pos (node ring i))) eqn:Ecmp; cbn [is_zero fst snd].
    + pose proof (Search_le (length ring - i)
                    (fun k => is_neg (Compare pos (Pos (node ring (k + i))))))
        as Hj.
      set (j := Search (length ring - i) _) in *.
      split; [exact Hb|]. split.
      * right. split; [lia|]. rewrite Nat2Z.id. symmetry.
        now apply Compare_eq.
      * destruct (Nat.ltb_spec (j + i) (length ring)); lia.
    + split; [exact Hb|]. split; [now left | lia].
    + split; [exact Hb|]. split; [now left | lia].
Qed.

Lemma index_in_range (ring : Ring) (i : Z) :
  (0 <= i < Z.of_nat (length ring))%Z ->
  index ring i = Some (node ring (Z.to_nat i)).
Proof.
  intro H. unfold index, node.
  destruct (Z.leb_spec 0 i); [|lia].
  apply nth_error_nth'. lia.
Qed.

(** X8.  [remotes pos] never panics on a non-empty ring, sorted or not:
    it returns entries of the ring as [before] and [after], and an [at]
    only when that entry sits at [pos]. *)
Theorem remotes_total (ring : Ring) (pos : list byte) :
  ring <> [] ->
  exists before at_ after,
    remotes ring pos = Some (before, at_, after)
    /\ In before ring /\ In after ring
    /\ forall x, at_ = Some x -> In x ring /\ Pos x = pos.
Proof.
  intro Hne. pose proof (indices_bounds pos Hne) as H. cbv zeta in H.
  unfold remotes. destruct (indices ring pos) as [[b a] f].
  cbn [fst snd] in H. destruct H as (Hb & Ha & Hf).
  rewrite (index_in_range _ Hb), (index_in_range _ Hf).
  destruct Ha as [-> | [Ha Hp]].
  - cbn. exists (node ring (Z.to_nat b)), None, (node ring (Z.to_nat f)).
    split; [reflexivity|]. split; [apply node_In; lia|].
    split; [apply node_In; lia | discriminate].
  - destruct (Z.eqb_spec a (-1)) as [|_]; [lia|]. cbn [negb andb].
    rewrite (index_in_range _ Ha).
    exists (node ring (Z.to_nat b)), (Some (node ring (Z.to_nat a))),
      (node ring (Z.to_nat f)).
    split; [reflexivity|]. split; [apply node_In; lia|].
    split; [apply node_In; lia|].
    intros x Hx. inversion Hx; subst x. split; [apply node_In; lia | exact Hp].
Qed.

(** X9.  On the empty ring [indices] answers (-1, -1, 0) for every
    position, and [remotes], [clean] and [getSlot] panic on the index or
    slice bound. *)
Theorem empty_ring_behaviour (pos predecessorPos successorPos : list byte) :
  indices [] pos = ((-1)%Z, (-1)%Z, 0%Z)
  /\ remotes [] pos = None
  /\ clean [] predecessorPos successorPos = None
  /\ getSlot [] = None.
Proof. repeat split. Qed.

Lemma slice_incl (l l' : Ring) (lo hi : Z) :
  slice l lo hi = Some l' -> incl l' l.
Proof.
  unfold slice. destruct (_ && _ && _)%bool; [|discriminate].
  intro H. inversion H; subst l'. intros x Hx.
  apply In_firstn_node in Hx. destruct Hx as (k & _ & Hk & ->).
  apply node_In in Hk. apply In_skipn_node in Hk.
  destruct Hk as (k' & _ & Hk' & ->). now apply node_In.
Qed.

Lemma slice_total (l : Ring) (lo hi : Z) :
  (0 <= lo <= hi)%Z -> (hi <= Z.of_nat (length l))%Z ->
  exists l', slice l lo hi = Some l'.
Proof.
  intros H1 H2. unfold slice.
  destruct (Z.leb_spec 0 lo); [|lia].
  destruct (Z.leb_spec lo hi); [|lia].
  destruct (Z.leb_spec hi (Z.of_nat (length l))); [|lia].
  eexists. reflexivity.
Qed.

(** X10.  [clean] never panics on a non-empty ring, whatever the two
    positions and whatever the order of the entries, and it only removes:
    every entry of the result is an entry of the ring. *)
Theorem clean_total (ring : Ring) (predecessorPos successorPos : list byte) :
  ring <> [] ->
  exists ring',
    clean ring predecessorPos successorPos = Some ring'
    /\ incl ring' ring.
Proof.
  intro Hne.
  pose proof (indices_bounds predecessorPos Hne) as Hp.
  pose proof (indices_bounds successorPos Hne) as Hs.
  cbv zeta in Hp, Hs. unfold clean.
  destruct (indices ring predecessorPos) as [[b1 a1] from].
  destruct (indices ring successorPos) as [[to0 at_] f2].
  cbn [fst snd] in Hp, Hs.
  destruct Hp as (_ & _ & Hfrom). destruct Hs as (Hto0 & Hat & _).
  set (to := if negb (at_ =? -1)%Z then at_ else to0).
  assert (Hto : (0 <= to < Z.of_nat (length ring))%Z).
  { unfold to. destruct (Z.eqb_spec at_ (-1)); cbn [negb]; [exact Hto0|].
    destruct Hat as [|[Hat _]]; [contradiction | exact Hat]. }
  destruct (Z.gtb_spec from to) as [Hgt | Hle].
  - destruct (@slice_total ring to from) as (l' & Hl'); try lia.
    exists l'. split; [exact Hl' | now apply (slice_incl _ _ _ Hl')].
  - destruct (@slice_total ring 0 from) as (la & Hla); try lia.
    destruct (@slice_total ring to (Z.of_nat (length ring))) as (lb & Hlb);
      try lia.
    rewrite Hla, Hlb. exists (la ++ lb). split; [reflexivity|].
    apply incl_app; [now apply (slice_incl _ _ _ Hla)
                    | now apply (slice_incl _ _ _ Hlb)].
Qed.

(** [SetBytes] reads at most [256 ^ length] different values. *)
Lemma SetBytes_fold_bound (b : list byte) :
  forall acc,
    (0 <= acc)%Z ->
    (0 <= fold_left (fun acc x => acc * 256 + Z.of_N (Byte.to_N x)) b acc
     < (acc + 1) * 256 ^ Z.of_nat (length b))%Z.
Proof.
  induction b as [|x b IH]; intros acc Hacc.
  - cbn. lia.
  - cbn [fold_left length]. rewrite Nat2Z.inj_succ, Z.pow_succ_r by lia.
    pose proof (Byte.to_N_bounded x) as Hx.
    assert (H0 : (0 <= acc * 256 + Z.of_N (Byte.to_N x))%Z) by lia.
    specialize (IH _ H0).
    assert (Hp : (0 < 256 ^ Z.of_nat (length b))%Z)
      by (apply Z.pow_pos_nonneg; lia).
    split; [lia|]. nia.
Qed.

Lemma SetBytes_bound (b : list byte) :
  (0 <= SetBytes b < 256 ^ Z.of_nat (length b))%Z.
Proof.
  pose proof (@SetBytes_fold_bound b 0%Z (Z.le_refl 0)) as H.
  unfold SetBytes. lia.
Qed.

(** X11.  On every non-empty ring whose last entry has a position of at
    most [murmur.Size] bytes, [getSlot] returns the midpoint of the arc
    that runs from the last entry round to the first entry one turn
    later; the arcs between neighbouring entries play no part. *)
Theorem getSlot_wrap_midpoint (ring : Ring) :
  ring <> [] ->
  length (Pos (node ring (length ring - 1))) <= murmur_Size ->
  getSlot ring
  = Some (Bytes (SetBytes (Pos (node ring (length ring - 1)))
                 + (2 ^ (8 * Z.of_nat murmur_Size)
                    + SetBytes (Pos (node ring 0))
                    - SetBytes (Pos (node ring (length ring - 1)))) / 2)%Z).
Proof.
  intros Hne Hlen.
  assert (Hn : 0 < length ring) by (destruct ring; [congruence | simpl; lia]).
  apply SlotFacts.getSlot_wrap_arc.
  - unfold node. apply nth_error_nth'. lia.
  - unfold node. apply nth_error_nth'. lia.
  - pose proof (SetBytes_bound (Pos (node ring (length ring - 1)))) as H1.
    pose proof (SetBytes_bound (Pos (node ring 0))) as H0.
    assert (Hpow : (256 ^ Z.of_nat (length (Pos (node ring (length ring - 1))))
                    <= 2 ^ (8 * Z.of_nat murmur_Size))%Z).
    { replace (2 ^ (8 * Z.of_nat murmur_Size))%Z
        with (256 ^ Z.of_nat murmur_Size)%Z
        by (change 256%Z with (2 ^ 8)%Z; rewrite <- Z.pow_mul_r by lia;
            reflexivity).
      apply Z.pow_le_mono_r; lia. }
    lia.
Qed.

End RingMore.

(** ** More on the dhash node: what the workers leave alone *)

Module DhashMore.
Import GoBytes Dhash DhashSpec CompareFacts DhashFacts.

Section Workers.
Context {C : Collaborators}.

(** *** sync *)

Lemma untouched_refl (a : Node) : untouched a a.
Proof. unfold untouched. tauto. Qed.

Lemma untouched_trans (a b c : Node) :
  untouched a b -> untouched b c -> untouched a c.
Proof. unfold untouched. intuition congruence. Qed.

Lemma run_untouched (self : Node) (job : SyncJob) :
  untouched self (fst (fst (run self job))).
Proof.
  unfold run. destruct (RunSync (tree self) job) as [[t p] d].
  unfold untouched. cbn. tauto.
Qed.

Lemma emit_untouched (self : Node) (evs : list Event) :
  untouched self (emit self evs).
Proof. unfold untouched. cbn. tauto. Qed.

Lemma sync_loop_effects (rounds : nat) :
  forall self next fetched distributed,
    let self' := fst (fst (sync_loop rounds self next fetched distributed)) in
    untouched self self'
    /\ syncs (trace self')
       = syncs (trace self) ++ sync_jobs rounds (node self) next.
Proof.
  induction rounds as [|rounds IH]; intros self next fetched distributed.
  - cbn. split; [apply untouched_refl | now rewrite app_nil_r].
  - cbn [sync_loop sync_jobs].
    set (job1 := mkSync true next (Pos (GetPredecessor (node self)))
                        (GetPosition (node self)) false).
    pose proof (run_untouched self job1) as Hu1.
    pose proof (run_trace self job1) as Ht1.
    destruct (run self job1) as [[self1 put1] del1]. cbn [fst] in Hu1, Ht1.
    assert (Hn1 : node self1 = node self) by (symmetry; apply Hu1).
    rewrite Hn1.
    set (job2 := mkSync false next (Pos (GetPredecessor (node self)))
                        (GetPosition (node self)) false).
    pose proof (run_untouched self1 job2) as Hu2.
    pose proof (run_trace self1 job2) as Ht2.
    destruct (run self1 job2) as [[self2 put2] del2]. cbn [fst] in Hu2, Ht2.
    assert (Hn2 : node self2 = node self).
    { rewrite <- Hn1. symmetry. apply Hu2. }
    rewrite Hn2.
    specialize (IH self2 (GetSuccessorForRemote (node self) next)
                   (fetched + put2)%Z (distributed + put1)%Z).
    cbv zeta in IH. destruct IH as [IHu IHt]. cbv zeta. split.
    + eapply untouched_trans; [exact Hu1|].
      eapply untouched_trans; [exact Hu2 | exact IHu].
    + rewrite IHt, Hn2, Ht2, Ht1, !syncs_app. cbn [syncs].
      rewrite <- !app_assoc. reflexivity.
Qed.

Lemma sync_jobs_shape (d : DNode) :
  forall rounds next,
    length (sync_jobs rounds d next) = 2 * rounds
    /\ forall job, In job (sync_jobs rounds d next) ->
                   destroy job = false
                   /\ from job = Pos (GetPredecessor d)
                   /\ to job = GetPosition d.
Proof.
  induction rounds as [|rounds IH]; intro next; cbn [sync_jobs length].
  - split; [reflexivity | contradiction].
  - destruct (IH (GetSuccessorForRemote d next)) as [Hl Hj]. split; [lia|].
    intros job [<- | [<- | Hin]]; cbn; auto.
Qed.

Lemma syncs_sync_listeners (ls : list SyncListener) (fetched distributed : Z) :
  syncs (map (fun l => CalledSyncListener l fetched distributed) ls) = [].
Proof. induction ls as [|l ls IH]; [reflexivity | exact IH]. Qed.

(** X12.  A sync pass runs exactly one push and one pull for each of the
    [Redundancy() - 1] successors, every one over the arc from the
    position of the predecessor to the own position and none with
    [Destroy]; the pass leaves the state word, the three timestamps, the
    listener lists and the routing node as they were. *)
Theorem sync_effects (self : Node) :
  untouched self (sync self)
  /\ exists jobs,
       syncs (trace (sync self)) = syncs (trace self) ++ jobs
       /\ length jobs = 2 * Z.to_nat (Redundancy (node self) - 1)
       /\ forall job, In job jobs ->
                      destroy job = false
                      /\ from job = Pos (GetPredecessor (node self))
                      /\ to job = GetPosition (node self).
Proof.
  unfold sync.
  pose proof (sync_loop_effects (Z.to_nat (Redundancy (node self) - 1))
                self (GetSuccessor (node self)) 0 0) as H.
  cbv zeta in H.
  destruct (sync_loop _ self _ 0 0) as [[self' fetched] distributed].
  cbn [fst] in H. destruct H as [Hu Ht].
  destruct (sync_jobs_shape (node self)
              (Z.to_nat (Redundancy (node self) - 1))
              (GetSuccessor (node self))) as [Hl Hj].
  destruct (negb (fetched =? 0)%Z || negb (distributed =? 0)%Z).
  - split.
    + eapply untouched_trans; [exact Hu | apply emit_untouched].
    + eexists. split; [|split; [exact Hl | exact Hj]].
      cbn [emit trace]. now rewrite syncs_app, syncs_sync_listeners, app_nil_r.
  - split; [exact Hu|].
    eexists. split; [exact Ht | split; [exact Hl | exact Hj]].
Qed.

(** X13.  With a replication factor of at most 1 a sync pass does
    nothing at all: no sync is run and no listener is called. *)
Theorem sync_without_replicas (self : Node) :
  (Redundancy (node self) <= 1)%Z -> sync self = self.
Proof.
  intro H. unfold sync.
  replace (Z.to_nat (Redundancy (node self) - 1)) with 0 by lia.
  reflexivity.
Qed.

(** *** owners *)

Lemma owners_loop_chain (self : Node) :
  forall rounds acc last isOwner,
    owners_loop rounds self acc last isOwner
    = (acc ++ chain rounds (node self) last,
       existsb (is_local self) (chain rounds (node self) last) || isOwner).
Proof.
  induction rounds as [|rounds IH]; intros acc last isOwner.
  - cbn. now rewrite app_nil_r.
  - cbn [owners_loop chain existsb]. rewrite IH, <- app_assoc.
    cbn [app]. f_equal. unfold is_local at 2.
    destruct (String.eqb _ _);
      [now rewrite !orb_true_r | now rewrite orb_false_l].
Qed.

Lemma chain_length (d : DNode) :
  forall rounds last, length (chain rounds d last) = rounds.
Proof.
  induction rounds as [|rounds IH]; intro last; [reflexivity|].
  cbn [chain length]. now rewrite IH.
Qed.

Lemma chain_links (d : DNode) :
  forall rounds first k o o',
    nth_error (first :: chain rounds d first) k = Some o ->
    nth_error (first :: chain rounds d first) (S k) = Some o' ->
    o' = GetSuccessorForRemote d o.
Proof.
  induction rounds as [|rounds IH]; intros first k o o' Hk Hk'.
  - destruct k; cbn in Hk'; discriminate.
  - cbn [chain] in *. destruct k as [|k].
    + cbn in Hk, Hk'. congruence.
    + cbn [nth_error] in Hk, Hk'. cbn [nth_error]. eapply IH; eauto.
Qed.

(** X14.  [owners key] returns [max(1, Redundancy())] owners: the first
    is [GetSuccessorFor(key)], every next one is the
    [GetSuccessorForRemote] of the one before, and the flag is true
    exactly when one of them has the local address. *)
Theorem owners_shape (self : Node) (key : list byte) :
  let os := fst (owners self key) in
  length os = S (Z.to_nat (Redundancy (node self) - 1))
  /\ nth_error os 0 = Some (GetSuccessorFor (node self) key)
  /\ (forall k o o', nth_error os k = Some o ->
                     nth_error os (S k) = Some o' ->
                     o' = GetSuccessorForRemote (node self) o)
  /\ (snd (owners self key) = true
      <-> exists o, In o os /\ Addr o = GetAddr (node self)).
Proof.
  unfold owners. rewrite owners_loop_chain. cbn [fst snd app].
  set (first := GetSuccessorFor (node self) key).
  set (rest := chain (Z.to_nat (Redundancy (node self) - 1)) (node self) first).
  split; [cbn [length]; unfold rest; now rewrite chain_length|].
  split; [reflexivity|]. split.
  - intros k o o'. apply chain_links.
  - rewrite orb_true_iff, existsb_exists. split.
    + intros [(o & Hin & Ho) | Hf].
      * exists o. split; [now right | now apply String.eqb_eq].
      * exists first. split; [now left | now apply String.eqb_eq].
    + intros (o & [<- | Hin] & Ho).
      * right. now apply String.eqb_eq.
      * left. exists o. split; [exact Hin | now apply String.eqb_eq].
Qed.

(** *** clean *)

Lemma clean_loop_untouched (nextKey : list byte) (primary : Remote) (n : Z) :
  forall rest self index deleted put,
    untouched self (fst (fst (clean_loop self nextKey primary n index rest
                                         deleted put))).
Proof.
  induction rest as [|owner rest IH]; intros self index deleted put.
  - apply untouched_refl.
  - cbn [clean_loop].
    pose proof (run_untouched self (mkSync true owner nextKey (Pos primary)
                                           (index =? n - 2)%Z)) as Hr.
    destruct (run self _) as [[self' putCount] delCount]. cbn [fst] in Hr.
    eapply untouched_trans; [exact Hr | apply IH].
Qed.

(** X15.  A clean tick leaves the state word, the three timestamps, the
    listener lists and the routing node as they were, and when the tree
    holds no key at all ([circularNext] finds none) it leaves the whole
    node as it was. *)
Theorem clean_frame (self : Node) :
  untouched self (clean self)
  /\ (snd (circularNext self (GetPosition (node self))) = false ->
      clean self = self).
Proof.
  unfold clean.
  destruct (circularNext self (GetPosition (node self))) as [nextKey existed].
  cbn [snd]. destruct existed; [|split; [apply untouched_refl | reflexivity]].
  split; [|discriminate].
  destruct (owners self nextKey) as [os isOwner].
  destruct isOwner; cbn [negb].
  - cbn. apply untouched_refl.
  - pose proof (clean_loop_untouched nextKey (nth 0 os Shard.noRemote)
                  (Z.of_nat (length os)) os self 0 0 0) as H.
    destruct (clean_loop self nextKey _ _ 0 os 0 0) as [[self' deleted] put].
    cbn [fst] in H.
    destruct (negb (deleted =? 0)%Z || negb (put =? 0)%Z); [|exact H].
    eapply untouched_trans; [exact H | apply emit_untouched].
Qed.

(** X16.  With a replication factor of at most 1 a clean tick never runs
    a sync with [Destroy]: the owner list has one entry, so no index is
    the second-to-last one, and keys handed over stay in the local
    tree. *)
Theorem clean_single_owner_keeps_keys (self : Node) :
  (Redundancy (node self) <= 1)%Z ->
  exists jobs,
    syncs (trace (clean self)) = syncs (trace self) ++ jobs
    /\ forall job, In job jobs -> destroy job = false.
Proof.
  intro HR. unfold clean.
  destruct (circularNext self (GetPosition (node self))) as [nextKey existed].
  destruct existed;
    [|exists []; split; [now rewrite app_nil_r | contradiction]].
  pose proof (owners_loop_chain self 0 [GetSuccessorFor (node self) nextKey]
                (GetSuccessorFor (node self) nextKey)
                (String.eqb (Addr (GetSuccessorFor (node self) nextKey))
                            (GetAddr (node self)))) as Ho.
  unfold owners. replace (Z.to_nat (Redundancy (node self) - 1)) with 0 by lia.
  rewrite Ho. cbn [chain app existsb orb].
  destruct (String.eqb _ _); cbn [negb].
  - exists []. split; [cbn; now rewrite app_nil_r | contradiction].
  - set (o := GetSuccessorFor (node self) nextKey).
    pose proof (clean_loop_syncs nextKey o 1 [o] self 0 0 0) as H.
    cbn [length nth Z.of_nat Pos.of_succ_nat].
    destruct (clean_loop self nextKey o 1 0 [o] 0 0) as [[self' deleted] put].
    cbn [fst] in H.
    exists (clean_jobs nextKey o 1 0 [o]). split.
    + destruct (negb (deleted =? 0)%Z || negb (put =? 0)%Z); [|exact H].
      cbn [emit trace]. now rewrite syncs_app, syncs_listeners, app_nil_r.
    + cbn. intros job [<- | []]. reflexivity.
Qed.

(** *** changePosition and migrate *)

(** X17.  The padding of [changePosition] yields at least [murmur.Size]
    bytes, keeps the given bytes as a prefix, appends only zero bytes,
    never shortens a longer position, and padding twice is padding
    once. *)
Theorem pad_properties (newPos : list byte) :
  length (pad newPos) = Nat.max (length newPos) murmur_Size
  /\ firstn (length newPos) (pad newPos) = newPos
  /\ Forall (fun b => b = Byte.x00) (skipn (length newPos) (pad newPos))
  /\ (murmur_Size <= length newPos -> pad newPos = newPos)
  /\ pad (pad newPos) = pad newPos.
Proof.
  rewrite !pad_spec. split; [|split; [|split; [|split]]].
  - rewrite length_app, repeat_length. lia.
  - rewrite firstn_app, firstn_all, Nat.sub_diag, firstn_O. apply app_nil_r.
  - rewrite skipn_app, skipn_all, Nat.sub_diag, skipn_O. cbn [app].
    apply Forall_forall. intros b Hb. now apply repeat_spec in Hb.
  - intro H. replace (murmur_Size - length newPos) with 0 by lia.
    apply app_nil_r.
  - rewrite length_app, repeat_length.
    replace (murmur_Size - (length newPos + (murmur_Size - length newPos)))
      with 0 by lia.
    apply app_nil_r.
Qed.

Lemma changePosition_same (self : Node) (newPos : list byte)
      (tReroute tMigrate : Z) :
  pad newPos = GetPosition (node self) ->
  changePosition self newPos tReroute tMigrate = self.
Proof.
  intro H. unfold changePosition. rewrite H, Compare_refl. reflexivity.
Qed.

Lemma changePosition_moved (self : Node) (newPos : list byte)
      (tReroute tMigrate : Z) :
  pad newPos <> GetPosition (node self) ->
  let self' := changePosition self newPos tReroute tMigrate in
  lastMigrate self' = tMigrate
  /\ node self' = fst (SetPosition (node self) (pad newPos))
  /\ tree self' = tree self
  /\ syncs (trace self') = syncs (trace self).
Proof.
  intro H. unfold changePosition.
  destruct (Compare (pad newPos) (GetPosition (node self))) eqn:E;
    [apply Compare_eq in E; contradiction | |]; cbn [is_zero negb];
    destruct (SetPosition (node self) (pad newPos)) as [d fired];
    destruct fired; cbn; rewrite !syncs_app; cbn;
    (split; [reflexivity|]); (split; [reflexivity|]); (split; [reflexivity|]);
    rewrite app_nil_r;
    (assert (Hl : forall ls a b,
                syncs (map (fun l => CalledMigrateListener l a b) ls) = [])
      by (intros ls a b; induction ls; auto));
    now rewrite Hl, app_nil_r.
Qed.

(** X18.  Calling [changePosition] again with the same position changes
    nothing more, provided the routing node reports the position it was
    given: the second call sets no position, stores no timestamp and
    calls no listener. *)
Theorem changePosition_twice (self : Node) (newPos : list byte)
        (t1 t2 t3 t4 : Z) :
  GetPosition (fst (SetPosition (node self) (pad newPos))) = pad newPos ->
  changePosition (changePosition self newPos t1 t2) newPos t3 t4
  = changePosition self newPos t1 t2.
Proof.
  intro Hget.
  destruct (list_eq_dec Byte.byte_eq_dec (pad newPos) (GetPosition (node self)))
    as [E | E].
  - rewrite (@changePosition_same self newPos t1 t2 E).
    now apply changePosition_same.
  - apply changePosition_same.
    destruct (@changePosition_moved self newPos t1 t2 E) as (_ & Hn & _).
    now rewrite Hn.
Qed.

Lemma migrate_not_quiet (self : Node) (now tReroute tMigrate : Z) :
  (now - migrateWaitFactor * syncInterval
   <= Z.max (lastSync self) (Z.max (lastReroute self) (lastMigrate self)))%Z ->
  migrate self now tReroute tMigrate = self.
Proof.
  intro H. unfold migrate.
  destruct (Z.gtb_spec (now + -1 * migrateWaitFactor * syncInterval)
                       (Max64 (lastSync self) (lastReroute self)
                              (lastMigrate self))) as [Hq | Hq];
    [|reflexivity].
  unfold Max64 in Hq. lia.
Qed.

(** X19.  After a position change made at clock reading [tMigrate], every
    migrate tick that starts no later than
    [tMigrate + migrateWaitFactor * syncInterval] leaves the node as it
    is: two position changes never follow each other within the
    quiescence window. *)
Theorem migrate_waits_after_move (self : Node) (newPos : list byte)
        (tReroute tMigrate now tReroute' tMigrate' : Z) :
  pad newPos <> GetPosition (node self) ->
  (now <= tMigrate + migrateWaitFactor * syncInterval)%Z ->
  migrate (changePosition self newPos tReroute tMigrate)
          now tReroute' tMigrate'
  = changePosition self newPos tReroute tMigrate.
Proof.
  intros Hmove Hnow. apply migrate_not_quiet.
  destruct (@changePosition_moved self newPos tReroute tMigrate Hmove)
    as (Hm & _).
  rewrite Hm. lia.
Qed.

(** X20.  When the successor answers the probe, a migrate tick moves
    nothing unless the own count is above 10 and above one and a half
    times the count of the successor: at exactly 10 keys, or at exactly
    the ratio 1.5, the node is left as it is. *)
Theorem migrate_below_hysteresis (self : Node) (succSize now tReroute tMigrate : Z) :
  CallOwned (tree self) (GetSuccessor (node self)) = Some succSize ->
  (Owned self <= 10 \/ 2 * Owned self <= 3 * succSize)%Z ->
  migrate self now tReroute tMigrate = self.
Proof.
  intros Hcall Hsmall. unfold migrate.
  destruct (_ >? _)%Z; [|reflexivity].
  rewrite Hcall. unfold exceeds_hysteresis.
  destruct (Z.gtb_spec (Owned self) 10) as [H10 | H10]; [|reflexivity].
  destruct (Z.ltb_spec (3 * succSize) (2 * Owned self)) as [Hh | Hh];
    [lia | reflexivity].
Qed.

(** X21.  A migrate tick never runs a sync and never replaces the tree,
    whichever way it ends. *)
Theorem migrate_leaves_tree (self : Node) (now tReroute tMigrate : Z) :
  tree (migrate self now tReroute tMigrate) = tree self
  /\ syncs (trace (migrate self now tReroute tMigrate)) = syncs (trace self).
Proof.
  unfold migrate.
  destruct (_ >? _)%Z; [|split; reflexivity].
  destruct (CallOwned (tree self) (GetSuccessor (node self))) as [succSize|].
  - destruct (_ && _)%bool; [|split; reflexivity].
    destruct (wanted self (GetSuccessor (node self)) _) as [wantedPos existed].
    destruct existed; cbn [negb]; [|split; reflexivity].
    destruct (BetweenIE _ _ _); [|split; reflexivity].
    destruct (list_eq_dec Byte.byte_eq_dec (pad wantedPos)
                          (GetPosition (node self))) as [E | E].
    + rewrite changePosition_same by assumption. split; reflexivity.
    + destruct (@changePosition_moved self wantedPos tReroute tMigrate E)
        as (_ & _ & Ht & Hs).
      split; assumption.
  - destruct (RemoveNode (node self) (GetSuccessor (node self))) as [d fired].
    destruct fired; cbn; rewrite syncs_app; cbn; now rewrite app_nil_r.
Qed.

End Workers.
End DhashMore.

(** ** The set operation enums *)

Module CommonFacts.
Import Common.

Ltac by_cases H :=
  repeat match type of H with
         | context [Z.eqb ?a ?b] =>
             destruct (Z.eqb_spec a b); [inversion H; subst; clear H|]
         end;
  try discriminate.

(** X22.  [SetOpMerge.String] returns a name exactly for the values 0 to
    18 and panics for every other value, and no two values share a
    name. *)
Theorem SetOpMerge_String_names :
  (forall self, (exists s, SetOpMerge_String self = Some s)
                <-> (0 <= self <= 18)%Z)
  /\ (forall a b s, SetOpMerge_String a = Some s ->
                    SetOpMerge_String b = Some s -> a = b).
Proof.
  split.
  - intro self. split.
    + intros (s & H). unfold SetOpMerge_String in H.
      by_cases H; unfold Append, ConCat, IntegerSum, IntegerSub, IntegerDiv,
        IntegerMul, FloatSum, FloatSub, FloatDiv, FLoatMul, BigIntAdd,
        BigIntAndNot, BigIntDiv, BigIntMod, BigIntMul, BigIntOr, BigIntRem,
        BigIntSub, BigIntXor; lia.
    + intro H. unfold SetOpMerge_String.
      repeat match goal with
             | |- context [Z.eqb ?a ?b] =>
                 destruct (Z.eqb_spec a b); [eexists; reflexivity|]
             end.
      unfold Append, ConCat, IntegerSum, IntegerSub, IntegerDiv,
        IntegerMul, FloatSum, FloatSub, FloatDiv, FLoatMul, BigIntAdd,
        BigIntAndNot, BigIntDiv, BigIntMod, BigIntMul, BigIntOr, BigIntRem,
        BigIntSub, BigIntXor in *. lia.
  - intros a b s Ha Hb. unfold SetOpMerge_String in Ha.
    by_cases Ha; unfold SetOpMerge_String in Hb; by_cases Hb; reflexivity.
Qed.

(** X23.  [SetOpType.String] returns U for 0, I for 1, D for 2 and X for
    3, and nothing else: it returns a string exactly for the values 0 to
    3 and panics for every other value, and no two values share a
    letter. *)
Theorem SetOpType_String_names :
  (forall self s,
      SetOpType_String self = Some s
      <-> (self = 0%Z /\ s = "U"%string) \/ (self = 1%Z /\ s = "I"%string)
          \/ (self = 2%Z /\ s = "D"%string) \/ (self = 3%Z /\ s = "X"%string))
  /\ (forall self, SetOpType_String self = None
                   <-> (self < 0 \/ 3 < self)%Z)
  /\ (forall self, (exists s, SetOpType_String self = Some s)
                   <-> (0 <= self <= 3)%Z)
  /\ (forall a b s, SetOpType_String a = Some s ->
                    SetOpType_String b = Some s -> a = b).
Proof.
  assert (Hmap : forall self s,
             SetOpType_String self = Some s
             <-> (self = 0%Z /\ s = "U"%string) \/ (self = 1%Z /\ s = "I"%string)
                 \/ (self = 2%Z /\ s = "D"%string)
                 \/ (self = 3%Z /\ s = "X"%string)).
  { intros self s. split.
    - intro H. unfold SetOpType_String in H. by_cases H; auto 6.
    - intros [[-> ->] | [[-> ->] | [[-> ->] | [-> ->]]]]; reflexivity. }
  split; [exact Hmap|]. split; [|split].
  - intro self. split.
    + intro H. unfold SetOpType_String in H.
      repeat match type of H with
             | context [Z.eqb ?a ?b] =>
                 destruct (Z.eqb_spec a b); [discriminate|]
             end.
      unfold Union, Intersection, Difference, Xor in *. lia.
    + intro H. unfold SetOpType_String.
      repeat match goal with
             | |- context [Z.eqb ?a ?b] =>
                 destruct (Z.eqb_spec a b);
                 [unfold Union, Intersection, Difference, Xor in *; lia|]
             end.
      reflexivity.
  - intro self. split.
    + intros (s & H). apply Hmap in H. lia.
    + intro H.
      assert (Hc : self = 0%Z \/ self = 1%Z \/ self = 2%Z \/ self = 3%Z) by lia.
      destruct Hc as [-> | [-> | [-> | ->]]]; eexists; reflexivity.
  - intros a b s Ha Hb. apply Hmap in Ha, Hb.
    destruct Ha as [[-> ->] | [[-> ->] | [[-> ->] | [-> ->]]]];
      destruct Hb as [[-> Hs] | [[-> Hs] | [[-> Hs] | [-> Hs]]]];
      (reflexivity || discriminate Hs).
Qed.

End CommonFacts.

(** ** The further statements on concrete rings and nodes *)

Module MoreExamples.
Import GoBytes Shard RingInv IndexSpec RingOps Demo.

Lemma add_members_witness :
  unique_addresses ring5
  /\ exists ring',
       add ring5 (mkRemote (at_byte Byte.x25) "a:9191") = Some ring'
       /\ forall x, In x ring'
                    <-> x = mkRemote (at_byte Byte.x25) "a:9191"
                        \/ (In x ring5 /\ Addr x <> "a:9191"%string).
Proof.
  split; [exact Examples.ring5_unique|].
  exact (@RingMore.add_members ring5 (mkRemote (at_byte Byte.x25) "a:9191")
           Examples.ring5_unique).
Defined.

Lemma add_idempotent_witness :
  unique_addresses ring5
  /\ add ring5 (mkRemote (at_byte Byte.x25) "f:9191")
     = Some (insert ring5 (mkRemote (at_byte Byte.x25) "f:9191"))
  /\ add (insert ring5 (mkRemote (at_byte Byte.x25) "f:9191"))
         (mkRemote (at_byte Byte.x25) "f:9191")
     = Some (insert ring5 (mkRemote (at_byte Byte.x25) "f:9191")).
Proof.
  assert (H : add ring5 (mkRemote (at_byte Byte.x25) "f:9191")
              = Some (insert ring5 (mkRemote (at_byte Byte.x25) "f:9191")))
    by reflexivity.
  split; [exact Examples.ring5_unique|]. split; [exact H|].
  exact (@RingMore.add_idempotent ring5 _ _ Examples.ring5_unique H).
Defined.

Lemma remove_filters_witness :
  unique_addresses ring5
  /\ remove ring5 (mkRemote [] "c:9191")
     = Some [mkRemote (at_byte Byte.x10) "a:9191";
             mkRemote (at_byte Byte.x20) "b:9191";
             mkRemote (at_byte Byte.x40) "d:9191";
             mkRemote (at_byte Byte.x50) "e:9191"].
Proof.
  split; [exact Examples.ring5_unique|].
  exact (@RingMore.remove_filters ring5 (mkRemote [] "c:9191")
           Examples.ring5_unique).
Defined.

Lemma remove_panics_on_duplicate_witness :
  Addr B = Addr B' /\ Addr B' = Addr B'
  /\ remove ring_twice B' = None.
Proof.
  split; [reflexivity|]. split; [reflexivity|].
  exact (@RingMore.remove_panics_on_duplicate [A] [Cn] B B' B'
           eq_refl eq_refl).
Defined.

Lemma remove_then_add_present_witness :
  sorted ring5 /\ unique_addresses ring5
  /\ In (mkRemote (at_byte Byte.x30) "c:9191") ring5
  /\ remove_then_add ring5 (mkRemote (at_byte Byte.x30) "c:9191") = Some ring5.
Proof.
  assert (H : In (mkRemote (at_byte Byte.x30) "c:9191") ring5)
    by (simpl; auto).
  split; [exact Examples.ring5_sorted|]. split; [exact Examples.ring5_unique|].
  split; [exact H|].
  exact (@RingMore.remove_then_add_present ring5 _ Examples.ring5_sorted
           Examples.ring5_unique H).
Defined.

Lemma add_add_commutes_witness :
  sorted ring5 /\ unique_addresses ring5
  /\ Addr (mkRemote (at_byte Byte.x25) "a:9191")
     <> Addr (mkRemote (at_byte Byte.x05) "f:9191")
  /\ exists result,
       add_add ring5 (mkRemote (at_byte Byte.x25) "a:9191")
               (mkRemote (at_byte Byte.x05) "f:9191") = Some result
       /\ add_add ring5 (mkRemote (at_byte Byte.x05) "f:9191")
                  (mkRemote (at_byte Byte.x25) "a:9191") = Some result.
Proof.
  assert (H : Addr (mkRemote (at_byte Byte.x25) "a:9191")
              <> Addr (mkRemote (at_byte Byte.x05) "f:9191"))
    by discriminate.
  split; [exact Examples.ring5_sorted|]. split; [exact Examples.ring5_unique|].
  split; [exact H|].
  exact (@RingMore.add_add_commutes ring5 _ _ Examples.ring5_sorted
           Examples.ring5_unique H).
Defined.

Lemma remotes_total_witness :
  ring_shared <> []
  /\ exists before at_ after,
       remotes ring_shared (at_byte Byte.x80) = Some (before, at_, after)
       /\ In before ring_shared /\ In after ring_shared
       /\ forall x, at_ = Some x ->
                    In x ring_shared /\ Pos x = at_byte Byte.x80.
Proof.
  assert (H : ring_shared <> []) by discriminate.
  split; [exact H|].
  exact (@RingMore.remotes_total ring_shared (at_byte Byte.x80) H).
Defined.

Lemma clean_total_witness :
  ring_twice <> []
  /\ exists ring',
       clean ring_twice (at_byte Byte.x90) (at_byte Byte.x10) = Some ring'
       /\ incl ring' ring_twice.
Proof.
  assert (H : ring_twice <> []) by discriminate.
  split; [exact H|].
  exact (@RingMore.clean_total ring_twice (at_byte Byte.x90)
           (at_byte Byte.x10) H).
Defined.

Lemma getSlot_wrap_midpoint_witness :
  ring5 <> []
  /\ length (Pos (node ring5 (length ring5 - 1))) <= murmur_Size
  /\ getSlot ring5 = Some (at_byte Byte.xb0).
Proof.
  assert (H : ring5 <> []) by discriminate.
  assert (Hl : length (Pos (node ring5 (length ring5 - 1))) <= murmur_Size)
    by (vm_compute; repeat constructor).
  split; [exact H|]. split; [exact Hl|].
  exact (@RingMore.getSlot_wrap_midpoint ring5 H Hl).
Defined.

Lemma sync_without_replicas_witness :
  (Dhash.Redundancy (Dhash.node (node_alone twelve_keys)) <= 1)%Z
  /\ Dhash.sync (node_alone twelve_keys) = node_alone twelve_keys.
Proof.
  assert (H : (Dhash.Redundancy (Dhash.node (node_alone twelve_keys)) <= 1)%Z)
    by (vm_compute; discriminate).
  split; [exact H|].
  exact (@DhashMore.sync_without_replicas env (node_alone twelve_keys) H).
Defined.

Lemma clean_single_owner_keeps_keys_witness :
  (Dhash.Redundancy (Dhash.node node_stale_alone) <= 1)%Z
  /\ exists jobs,
       Dhash.syncs (Dhash.trace (Dhash.clean node_stale_alone)) = [] ++ jobs
       /\ forall job, In job jobs -> Dhash.destroy job = false.
Proof.
  assert (H : (Dhash.Redundancy (Dhash.node node_stale_alone) <= 1)%Z)
    by (vm_compute; discriminate).
  split; [exact H|].
  exact (@DhashMore.clean_single_owner_keeps_keys env node_stale_alone H).
Defined.

Lemma changePosition_twice_witness :
  Dhash.GetPosition
    (fst (Dhash.SetPosition (Dhash.node (node_c twelve_keys None))
                            (Dhash.pad [Byte.x88])))
  = Dhash.pad [Byte.x88]
  /\ Dhash.changePosition
       (Dhash.changePosition (node_c twelve_keys None) [Byte.x88] 1 2)
       [Byte.x88] 3 4
     = Dhash.changePosition (node_c twelve_keys None) [Byte.x88] 1 2.
Proof.
  split; [reflexivity|].
  exact (@DhashMore.changePosition_twice env (node_c twelve_keys None)
           [Byte.x88] 1 2 3 4 eq_refl).
Defined.

Lemma migrate_waits_after_move_witness :
  Dhash.pad [Byte.x88] <> Dhash.GetPosition (Dhash.node (node_c twelve_keys (Some 1%Z)))
  /\ (2000000100 <= 100 + Dhash.migrateWaitFactor * Dhash.syncInterval)%Z
  /\ Dhash.migrate
       (Dhash.changePosition (node_c twelve_keys (Some 1%Z)) [Byte.x88] 99 100)
       2000000100 2000000101 2000000102
     = Dhash.changePosition (node_c twelve_keys (Some 1%Z)) [Byte.x88] 99 100.
Proof.
  assert (H1 : Dhash.pad [Byte.x88]
               <> Dhash.GetPosition (Dhash.node (node_c twelve_keys (Some 1%Z))))
    by discriminate.
  assert (H2 : (2000000100 <= 100 + Dhash.migrateWaitFactor * Dhash.syncInterval)%Z)
    by (vm_compute; discriminate).
  split; [exact H1|]. split; [exact H2|].
  exact (@DhashMore.migrate_waits_after_move env (node_c twelve_keys (Some 1%Z))
           [Byte.x88] 99 100 2000000100 2000000101 2000000102 H1 H2).
Defined.

Lemma migrate_below_hysteresis_witness :
  Dhash.CallOwned (Dhash.tree (node_c (firstn 10 twelve_keys) (Some 1%Z)))
                  (Dhash.GetSuccessor
                     (Dhash.node (node_c (firstn 10 twelve_keys) (Some 1%Z))))
  = Some 1%Z
  /\ (Dhash.Owned (node_c (firstn 10 twelve_keys) (Some 1%Z)) <= 10
      \/ 2 * Dhash.Owned (node_c (firstn 10 twelve_keys) (Some 1%Z)) <= 3 * 1)%Z
  /\ Dhash.migrate (node_c (firstn 10 twelve_keys) (Some 1%Z))
                   5000000000 5000000001 5000000002
     = node_c (firstn 10 twelve_keys) (Some 1%Z).
Proof.
  assert (H : (Dhash.Owned (node_c (firstn 10 twelve_keys) (Some 1%Z)) <= 10
               \/ 2 * Dhash.Owned (node_c (firstn 10 twelve_keys) (Some 1%Z))
                  <= 3 * 1)%Z)
    by (left; vm_compute; discriminate).
  split; [reflexivity|]. split; [exact H|].
  exact (@DhashMore.migrate_below_hysteresis env
           (node_c (firstn 10 twelve_keys) (Some 1%Z)) 1
           5000000000 5000000001 5000000002 eq_refl H).
Defined.

End MoreExamples.
